(** * werft: the [run] command (cmd/run.go) and the job pipeline it wires up

    The first half embeds [cmd/run.go]: the [Config] type, the argument
    check of the cobra command and the body of [RunE], written in a small
    trace-and-error monad so that every call to the outside world (file
    system, JSON decoder, Kubernetes, GitHub, PostgreSQL) is recorded in the
    order the Go code makes it.

    The second half models what [run.go] imports from [pkg/logcutter] and
    [pkg/store] after the specification; those definitions are marked as
    such. *)

From Stdlib Require Import Sorted.
From stdpp Require Import base strings list gmap pretty.

Open Scope Z_scope.
Open Scope string_scope.
Open Scope list_scope.

(** ** Go values shared by all packages *)

(** A Go [error] value: only its message is observable here. *)
Inductive error := Err (msg : string).

(** What a Go call leaves its caller with: a value, a returned [error], a
    run-time panic (indexing [args] out of range), or nothing at all when
    the call never returns (a receive on a channel nobody sends to). *)
Inductive outcome (A : Type) :=
| Ok (a : A)
| Fail (e : error)
| Panic (msg : string)
| Blocked.
Arguments Ok {A} a.
Arguments Fail {A} e.
Arguments Panic {A} msg.
Arguments Blocked {A}.

(** A constructor of an external library: whether it fails is decided by
    the outside world, the value it builds on success is determined by its
    arguments. *)
Definition build {A : Type} (failure : option error) (a : A) : outcome A :=
  match failure with
  | Some e => Fail e
  | None => Ok a
  end.

(** ** The imported packages, as far as run.go uses them *)

Module os.
(** The signals [RunE] subscribes to: [os.Interrupt] and [syscall.SIGTERM]. *)
Inductive Signal := Interrupt | SIGTERM.
End os.

Module rest.
(** [*rest.Config], by the call that produced it. *)
Inductive Config :=
| InCluster
| FromFlags (masterUrl kubeconfigPath : string).
End rest.

Module ghinstallation.
Inductive Transport :=
| KeyFromFile (appID installationID : Z) (privateKeyFile : string).
End ghinstallation.

Module github.
Inductive Client := NewClient (transport : ghinstallation.Transport).
End github.

Module sql.
Inductive DB := Opened (driverName dataSourceName : string).
End sql.

Module executor.
Record Config := { Namespace : string }.
Inductive Executor := Built (cfg : Config) (kubeConfig : rest.Config).
End executor.

Module store.
(** The two kinds of backend the specification speaks of. *)
Inductive Backend := FileBased | Relational.

(** Modelled from the spec: the declarations of the [store] package are
    not among the sources; section 9 describes each store as a capability
    interface with a file-based and a relational variant. [run.go] names
    the constructors [NewFileLogStore] and [NewSQLJobStore]. *)
Inductive Logs :=
| FileLogStore (base : string)
| SQLLogStore (db : sql.DB).

Inductive Jobs :=
| FileJobStore (base : string)
| SQLJobStore (db : sql.DB).

Definition LogsBackend (l : Logs) : Backend :=
  match l with
  | FileLogStore _ => FileBased
  | SQLLogStore _ => Relational
  end.

Definition JobsBackend (j : Jobs) : Backend :=
  match j with
  | FileJobStore _ => FileBased
  | SQLJobStore _ => Relational
  end.

(** *** The Job Store *)

(** Modelled from the spec: section 3, the phases of a job. *)
Inductive Phase := Created | Scheduled | Running | Succeeded | Failed | Aborted.

Global Instance Phase_eq_dec : EqDecision Phase.
Proof. solve_decision. Defined.

(** Position in the order [Created < Scheduled < Running < {terminal}]. *)
Definition rank (p : Phase) : nat :=
  match p with
  | Created => 0
  | Scheduled => 1
  | Running => 2
  | Succeeded | Failed | Aborted => 3
  end.

Definition terminal (p : Phase) : bool :=
  match p with
  | Succeeded | Failed | Aborted => true
  | Created | Scheduled | Running => false
  end.

(** A phase sequence that never moves backward. *)
Fixpoint NonDecreasing (l : list Phase) : Prop :=
  match l with
  | p :: (q :: _) as rest => (rank p ≤ rank q)%nat ∧ NonDecreasing rest
  | _ => True
  end.

(** Modelled from the spec: section 3, the monotonic-phase invariant, as a
    property of the whole sequence of phases recorded for a job: it never
    moves backward, and it holds at most one of the three terminal phases. *)
Definition Monotonic (log : list Phase) : Prop :=
  NonDecreasing log ∧
  ∀ p q, p ∈ log → q ∈ log → terminal p = true → terminal q = true → p = q.

(** The check the store runs on a requested write; it looks at the current
    phase only, not at the log. *)
Definition violates (cur new : Phase) : bool :=
  (rank new <? rank cur)%nat || (terminal cur && negb (bool_decide (new = cur))).

(** Modelled from the spec: section 3 and section 6, the durable record
    of a job: name, trigger metadata, current phase and the transition
    log. Time stamps and segment references play no part in the phase
    rules and are left out. *)
Record Job := {
  JobName : string;
  Trigger : string;
  JobPhase : Phase;
  Transitions : list Phase
}.

Record Store := {
  Records : gmap nat Job;
  NextID : nat
}.

Definition empty : Store := {| Records := ∅; NextID := 0 |}.

Inductive UpdateResult := Success | Conflict.

(** Modelled from the spec: section 4.3, [Create(job) -> id]. The id is
    assigned here; the record starts in [Created]. *)
Definition Create (name trigger : string) (s : Store) : nat * Store :=
  (NextID s,
   {| Records := <[NextID s := {| JobName := name; Trigger := trigger;
                                  JobPhase := Created;
                                  Transitions := [Created] |}]> (Records s);
      NextID := S (NextID s) |}).

Definition setPhase (p : Phase) (j : Job) : Job :=
  {| JobName := JobName j; Trigger := Trigger j; JobPhase := p;
     Transitions := Transitions j ++ [p] |}.

(** Modelled from the spec: section 4.3,
    [UpdateStatus(id, phase) -> success|Conflict]: one step on the store
    that either applies the write or rejects it and leaves the store as
    it was. The contract names no outcome for an id without a record;
    there is no phase to move from, so that write is rejected too. *)
Definition UpdateStatus (id : nat) (p : Phase) (s : Store)
  : UpdateResult * Store :=
  match Records s !! id with
  | None => (Conflict, s)
  | Some j =>
      if violates (JobPhase j) p then (Conflict, s)
      else (Success,
            {| Records := <[id := setPhase p j]> (Records s);
               NextID := NextID s |})
  end.

(** [Get(id) -> Job|NotFound] *)
Definition Get (id : nat) (s : Store) : option Job := Records s !! id.

(** The stores a service can get to: any interleaving of [Create] and
    [UpdateStatus] calls, whatever their arguments. *)
Inductive Reachable : Store → Prop :=
| ReachEmpty : Reachable empty
| ReachCreate s name trigger :
    Reachable s → Reachable (snd (Create name trigger s))
| ReachUpdate s id p :
    Reachable s → Reachable (snd (UpdateStatus id p s)).

(** What every stored record satisfies: its log never moves backward,
    ends in the current phase, and holds no terminal phase other than
    the current one. *)
Definition JobInv (j : Job) : Prop :=
  NonDecreasing (Transitions j) ∧
  last (Transitions j) = Some (JobPhase j) ∧
  (∀ p, p ∈ Transitions j → terminal p = true → p = JobPhase j).

(** A requested write violates the invariant when the log of the job,
    once the requested phase is recorded, would no longer satisfy it. *)
Definition Violates (j : Job) (p : Phase) : Prop :=
  ¬ Monotonic (Transitions j ++ [p]).

(** *** Unending use of the store *)

Inductive Op :=
| OpCreate (name trigger : string)
| OpUpdateStatus (id : nat) (p : Phase).

Definition apply (o : Op) (s : Store) : Store :=
  match o with
  | OpCreate name trigger => snd (Create name trigger s)
  | OpUpdateStatus id p => snd (UpdateStatus id p s)
  end.

(** The store after the first [n] calls of an unending sequence of calls. *)
Fixpoint after (ops : nat → Op) (n : nat) : Store :=
  match n with
  | 0%nat => empty
  | S k => apply (ops k) (after ops k)
  end.

(** *** Concurrent callers *)

(** Modelled from the spec: section 5, "Job Store writes for a given job id
    are serialized by that id (no concurrent writers for one job)". A call
    of [UpdateStatus] is made of two moves, reading the record and then
    writing it, and the moves of different callers interleave freely; a
    caller begins only when no other caller is between its two moves on
    the same id. *)
Inductive Call :=
| Waiting (id : nat) (p : Phase)
| Holding (id : nat) (p : Phase) (seen : option Job)
| Returned (id : nat) (p : Phase) (r : UpdateResult).

Record System := {
  Stored : Store;
  Calls : list Call
}.

Definition holds (id : nat) (c : Call) : bool :=
  match c with
  | Holding id' _ _ => bool_decide (id' = id)
  | _ => false
  end.

(** What a caller decides from the record it has read. *)
Definition decide_write (p : Phase) (seen : option Job) : UpdateResult :=
  match seen with
  | None => Conflict
  | Some j => if violates (JobPhase j) p then Conflict else Success
  end.

(** The write of a caller that goes ahead: it writes back the record it
    has read, moved to the requested phase. *)
Definition write_back (id : nat) (p : Phase) (seen : option Job) (s : Store)
  : Store :=
  match seen with
  | Some j =>
      if violates (JobPhase j) p then s
      else {| Records := <[id := setPhase p j]> (Records s);
              NextID := NextID s |}
  | None => s
  end.

(** One move of caller [i]. *)
Definition move (i : nat) (sys : System) : System :=
  match Calls sys !! i with
  | Some (Waiting id p) =>
      if existsb (holds id) (Calls sys) then sys
      else {| Stored := Stored sys;
              Calls := <[i := Holding id p (Records (Stored sys) !! id)]>
                         (Calls sys) |}
  | Some (Holding id p seen) =>
      {| Stored := write_back id p seen (Stored sys);
         Calls := <[i := Returned id p (decide_write p seen)]> (Calls sys) |}
  | _ => sys
  end.

(** The requests [(id, phase)] of the callers, none begun yet. *)
Definition submit (s : Store) (requests : list (nat * Phase)) : System :=
  {| Stored := s; Calls := (λ r, Waiting r.1 r.2) <$> requests |}.

(** A schedule names the caller that moves next, move after move. *)
Definition schedule (sched : list nat) (sys : System) : System :=
  foldl (λ sys i, move i sys) sys sched.

(** What the interleaving keeps true: the store is one that whole calls
    could have produced, a caller between its two moves has read what the
    store still holds for its id, and no two callers are between their
    moves on the same id. *)
Definition SysInv (sys : System) : Prop :=
  Reachable (Stored sys) ∧
  (∀ i id p seen, Calls sys !! i = Some (Holding id p seen) →
                  seen = Records (Stored sys) !! id) ∧
  (∀ i i' id p p' seen seen',
      Calls sys !! i = Some (Holding id p seen) →
      Calls sys !! i' = Some (Holding id p' seen') → i = i').
End store.

Module logcutter.
(** Modelled from the spec: section 4.2, [SegmentEvent] is
    [{Open(name) | Line(text) | Close}]. *)
Inductive SegmentEvent :=
| Open (name : string)
| Line (text : string)
| Close.

(** Modelled from the spec: the [Cutter] type of [pkg/logcutter] is not
    among the sources. Section 4.2: a cutter is configured by a boundary
    marker pattern, which names the segment a marker line opens, and has
    an implicit default segment for lines seen before any marker. *)
Record Cutter := {
  Marker : string → option string;
  DefaultSegment : string
}.

(** Modelled from the spec: section 4.2, the default policy, one line at
    a time. The state of a run is the name of the open segment, if any. *)
Definition step (c : Cutter) (cur : option string) (line : string)
  : list SegmentEvent * option string :=
  match Marker c line with
  | Some name =>
      ((if cur is Some _ then [Close] else []) ++ [Open name], Some name)
  | None =>
      match cur with
      | Some _ => ([Line line], cur)
      | None => ([Open (DefaultSegment c); Line line],
                 Some (DefaultSegment c))
      end
  end.

Fixpoint run (c : Cutter) (cur : option string) (lines : list string)
  : list SegmentEvent :=
  match lines with
  | [] => if cur is Some _ then [Close] else []
  | l :: ls => let '(evs, cur') := step c cur l in evs ++ run c cur' ls
  end.

(** [Classify(stream of line)]: every invocation starts with no segment
    open. *)
Definition Classify (c : Cutter) (lines : list string) : list SegmentEvent :=
  run c None lines.

(** Reading segments back from an event sequence, right to left: the
    lines seen since the last [Close] belong to the [Open] before them. *)
Definition collect (ev : SegmentEvent)
  (acc : list string * list (string * list string))
  : list string * list (string * list string) :=
  match ev with
  | Close => ([], snd acc)
  | Line text => (text :: fst acc, snd acc)
  | Open name => ([], (name, fst acc) :: snd acc)
  end.

Definition segments (evs : list SegmentEvent) : list (string * list string) :=
  snd (foldr collect ([], []) evs).




(** Modelled from the spec: the marker syntax of the default cutter. The
    example of section 8 writes a marker as [=== name ===]; section 9
    leaves the precise syntax open. *)
Definition defaultMarker (line : string) : option string :=
  let n := String.length line in
  if String.prefix "=== " line
     && String.eqb (String.substring (n - 4) 4 line) " ==="
     && (8 <? n)%nat
  then Some (String.substring 4 (n - 8) line)
  else None.

Definition DefaultCutter : Cutter :=
  {| Marker := defaultMarker; DefaultSegment := "default" |}.

(** *** Several runs through one cutter *)

(** Modelled from the spec: section 4.2, "every job gets an independent
    classification run; no shared mutable state, so one Cutter
    configuration is safely reusable concurrently across jobs". A run in
    progress: the open segment, the lines not read yet, the events produced
    so far, and whether the end of the input has been handled. *)
Record Run := {
  Cur : option string;
  Pending : list string;
  Out : list SegmentEvent;
  Finished : bool
}.

Definition start (lines : list string) : Run :=
  {| Cur := None; Pending := lines; Out := []; Finished := false |}.

(** One move of a run: it reads its next line, or, at the end of its input,
    closes the open segment. *)
Definition advance (c : Cutter) (r : Run) : Run :=
  if Finished r then r
  else
    match Pending r with
    | l :: ls =>
        let '(evs, cur') := step c (Cur r) l in
        {| Cur := cur'; Pending := ls; Out := Out r ++ evs;
           Finished := false |}
    | [] =>
        {| Cur := None; Pending := [];
           Out := Out r ++ (if Cur r is Some _ then [Close] else []);
           Finished := true |}
    end.

(** The runs of the jobs that share the cutter, by job. *)
Definition feed (inputs : gmap nat (list string)) : gmap nat Run :=
  start <$> inputs.

(** A schedule names the job whose run moves next, move after move. *)
Definition interleave (c : Cutter) (sched : list nat) (pool : gmap nat Run)
  : gmap nat Run :=
  foldl (λ pool j, alter (advance c) j pool) pool sched.

(** What is left for a run to produce. *)
Definition rest (c : Cutter) (r : Run) : list SegmentEvent :=
  if Finished r then [] else run c (Cur r) (Pending r).

(** The moves a run still needs. *)
Definition todo (r : Run) : nat :=
  if Finished r then 0 else S (length (Pending r)).
End logcutter.

Module werft.
Record GitHubSetup := {
  WebhookSecret : string;
  Client : github.Client
}.

Record Service := {
  Logs : store.Logs;
  Jobs : store.Jobs;
  Executor : executor.Executor;
  Cutter : logcutter.Cutter;
  GitHub : GitHubSetup;
  DebugProxy : string
}.

(** [service.DebugProxy = val] *)
Definition setDebugProxy (val : string) (s : Service) : Service :=
  {| Logs := Logs s; Jobs := Jobs s; Executor := Executor s;
     Cutter := Cutter s; GitHub := GitHub s; DebugProxy := val |}.
End werft.

(** ** package cmd: the Config type *)

Record ServiceConfig := { WebPort : Z; GRPCPort : Z }.
Record StorageConfig := { LogStore : string; JobStore : string }.
Record KubernetesConfig := { Kubeconfig : string; Namespace : string }.
Record GitHubConfig := {
  WebhookSecret : string;
  PrivateKeyPath : string;
  InstallationID : Z;
  AppID : Z
}.

(** [Config] configures the werft server. *)
Record Config := {
  Service : ServiceConfig;
  Storage : StorageConfig;
  Kubernetes : KubernetesConfig;
  GitHub : GitHubConfig
}.

(** ** The outside world of one process *)

(** Everything [RunE] reads that is not an argument: the answers of the
    file system and of the libraries, what the package-level identifier
    [logcutter.DefaultCutter] denotes in this process, and the signal that
    is delivered to the process once it waits for one, if any ever is. *)
Record World := {
  ReadFile : string → outcome string;
  Unmarshal : string → outcome Config;
  InClusterConfig_err : option error;
  BuildConfigFromFlags_err : string → string → option error;
  NewKeyFromFile_err : Z → Z → string → option error;
  NewFileLogStore_err : string → option error;
  Open_err : string → string → option error;
  Ping_err : sql.DB → option error;
  NewSQLJobStore_err : sql.DB → option error;
  NewExecutor_err : executor.Config → rest.Config → option error;
  logcutter_DefaultCutter : logcutter.Cutter;
  Signal : option os.Signal
}.

(** The statements [RunE] executes that reach outside, in the order it
    executes them. [EGoStartWeb] and [EGoStartGRPC] stand for the two [go]
    statements: the goroutine is spawned with the receiver and the address
    evaluated on the spot; when the spawned call runs is not recorded.
    [EAwaitSignal] is the receive [<-sigChan]. *)
Inductive Event :=
| EReadFile (filename : string)
| EUnmarshal (data : string)
| EInClusterConfig
| EBuildConfigFromFlags (masterUrl kubeconfigPath : string)
| ENewKeyFromFile (appID installationID : Z) (privateKeyFile : string)
| ENewFileLogStore (base : string)
| ELogInfo (msg : string)
| EOpen (driverName dataSourceName : string)
| EPing (db : sql.DB)
| ENewSQLJobStore (db : sql.DB)
| ENewExecutor (cfg : executor.Config) (kubeConfig : rest.Config)
| EExecRun (exec : executor.Executor)
| EServiceStart (s : werft.Service)
| EGoStartWeb (s : werft.Service) (addr : string)
| EGoStartGRPC (s : werft.Service) (addr : string)
| ESignalNotify
| EAwaitSignal.

(** ** A trace-and-error monad for the body of RunE *)

Definition M (A : Type) : Type := (list Event * outcome A)%type.

Global Instance M_ret : MRet M := λ A a, ([], Ok a).

Global Instance M_bind : MBind M := λ A B f m,
  match m with
  | (t, Ok a) => let '(t', r) := f a in (t ++ t', r)
  | (t, Fail e) => (t, Fail e)
  | (t, Panic msg) => (t, Panic msg)
  | (t, Blocked) => (t, Blocked)
  end.

(** One external call: the event is recorded whatever the call returns. *)
Definition call {A : Type} (ev : Event) (r : outcome A) : M A := ([ev], r).

(** A call that returns and has no error result. *)
Definition emit (ev : Event) : M unit := ([ev], Ok tt).

Definition trace {A : Type} (m : M A) : list Event := fst m.
Definition returned {A : Type} (m : M A) : outcome A := snd m.

(** ** The external constructors *)

Definition InClusterConfig (w : World) : outcome rest.Config :=
  build (InClusterConfig_err w) rest.InCluster.

Definition BuildConfigFromFlags (w : World) (masterUrl path : string)
  : outcome rest.Config :=
  build (BuildConfigFromFlags_err w masterUrl path)
        (rest.FromFlags masterUrl path).

Definition NewKeyFromFile (w : World) (appID instID : Z) (path : string)
  : outcome ghinstallation.Transport :=
  build (NewKeyFromFile_err w appID instID path)
        (ghinstallation.KeyFromFile appID instID path).

Definition NewFileLogStore (w : World) (base : string) : outcome store.Logs :=
  build (NewFileLogStore_err w base) (store.FileLogStore base).

Definition Open (w : World) (driver dsn : string) : outcome sql.DB :=
  build (Open_err w driver dsn) (sql.Opened driver dsn).

(** [db.Ping()] returns an error or nil. *)
Definition Ping (w : World) (db : sql.DB) : outcome unit :=
  build (Ping_err w db) tt.

Definition NewSQLJobStore (w : World) (db : sql.DB) : outcome store.Jobs :=
  build (NewSQLJobStore_err w db) (store.SQLJobStore db).

Definition NewExecutor (w : World) (cfg : executor.Config) (kc : rest.Config)
  : outcome executor.Executor :=
  build (NewExecutor_err w cfg kc) (executor.Built cfg kc).

(** ** cobra: positional arguments and flags *)

(** [cobra.ExactArgs(n)]: an error unless exactly [n] arguments are given. *)
Definition ExactArgs (n : nat) (args : list string) : option error :=
  if decide (length args = n) then None
  else Some (Err ("accepts " +:+ pretty n +:+ " arg(s), received "
                  +:+ pretty (length args))).

(** [cmd.Flags().GetString(name)]; every flag of [runCmd] is registered
    with the default value [""]. *)
Definition GetString (flags : gmap string string) (name : string) : string :=
  default "" (flags !! name).

(** [args[i]] *)
Definition index (args : list string) (i : nat) : M string :=
  match args !! i with
  | Some a => mret a
  | None => ([], Panic "index out of range")
  end.

(** [<-sigChan]: the signal delivered to the process, or no return. *)
Definition Receive (w : World) : outcome os.Signal :=
  match Signal w with
  | Some sig => Ok sig
  | None => Blocked
  end.

(** [fmt.Sprintf(":%d", port)] *)
Definition listenAddr (port : Z) : string := ":" +:+ pretty port.

(** ** runCmd *)

(** The executor configuration built from the parsed configuration:
    the namespace falls back to ["default"]. *)
Definition execCfg (cfg : Config) : executor.Config :=
  let c := {| executor.Namespace := Namespace (Kubernetes cfg) |} in
  if decide (executor.Namespace c = "") then
    {| executor.Namespace := "default" |}
  else c.

(** The first branch of [RunE]: where the Kubernetes client configuration
    comes from. *)
Definition kubeConfig (w : World) (cfg : Config) : M rest.Config :=
  if decide (Kubeconfig (Kubernetes cfg) = "") then
    call EInClusterConfig (InClusterConfig w)
  else
    call (EBuildConfigFromFlags "" (Kubeconfig (Kubernetes cfg)))
         (BuildConfigFromFlags w "" (Kubeconfig (Kubernetes cfg))).

Definition RunE (w : World) (flags : gmap string string) (args : list string)
  : M unit :=
  arg0 ← index args 0;
  fc ← call (EReadFile arg0) (ReadFile w arg0);
  cfg ← call (EUnmarshal fc) (Unmarshal w fc);
  kc ← kubeConfig w cfg;
  ghtr ← call (ENewKeyFromFile (AppID (GitHub cfg)) (InstallationID (GitHub cfg))
                               (PrivateKeyPath (GitHub cfg)))
              (NewKeyFromFile w (AppID (GitHub cfg)) (InstallationID (GitHub cfg))
                              (PrivateKeyPath (GitHub cfg)));
  let ghClient := github.NewClient ghtr in
  let ec := execCfg cfg in
  logStore ← call (ENewFileLogStore (LogStore (Storage cfg)))
                  (NewFileLogStore w (LogStore (Storage cfg)));
  emit (ELogInfo "connecting to database");;
  db ← call (EOpen "postgres" (JobStore (Storage cfg)))
            (Open w "postgres" (JobStore (Storage cfg)));
  call (EPing db) (Ping w db);;
  jobStore ← call (ENewSQLJobStore db) (NewSQLJobStore w db);
  emit (ELogInfo "connecting to kubernetes");;
  exec ← call (ENewExecutor ec kc) (NewExecutor w ec kc);
  emit (EExecRun exec);;
  let service :=
    {| werft.Logs := logStore;
       werft.Jobs := jobStore;
       werft.Executor := exec;
       werft.Cutter := logcutter_DefaultCutter w;
       werft.GitHub :=
         {| werft.WebhookSecret := WebhookSecret (GitHub cfg);
            werft.Client := ghClient |};
       werft.DebugProxy := "" |} in
  let service :=
    let val := GetString flags "debug-webui-proxy" in
    if decide (val = "") then service else werft.setDebugProxy val service in
  emit (EServiceStart service);;
  emit (EGoStartWeb service (listenAddr (WebPort (Service cfg))));;
  emit (EGoStartGRPC service (listenAddr (GRPCPort (Service cfg))));;
  emit ESignalNotify;;
  emit (ELogInfo "werft is up and running. Stop with SIGINT or CTRL+C");;
  call EAwaitSignal (Receive w);;
  emit (ELogInfo "Received SIGINT - shutting down");;
  mret tt.

(** The command as cobra runs it: [Args] is checked first, and [RunE] is
    entered only when it accepts. *)
Definition runCmd (w : World) (flags : gmap string string) (args : list string)
  : M unit :=
  match ExactArgs 1 args with
  | Some e => ([], Fail e)
  | None => RunE w flags args
  end.

(** ** Classes of calls *)

(** The service takes traffic: [service.Start], [StartWeb], [StartGRPC]. *)
Definition serving (ev : Event) : bool :=
  match ev with
  | EServiceStart _ | EGoStartWeb _ _ | EGoStartGRPC _ _ => true
  | _ => false
  end.

(** Calls that reach for a store: the log directory and the database. *)
Definition store_connection (ev : Event) : bool :=
  match ev with
  | ENewFileLogStore _ | EOpen _ _ | EPing _ | ENewSQLJobStore _ => true
  | _ => false
  end.

(** Calls that reach for the cluster scheduler. *)
Definition scheduler_connection (ev : Event) : bool :=
  match ev with
  | ENewExecutor _ _ | EExecRun _ => true
  | _ => false
  end.

(** Any call towards GitHub, the database or Kubernetes. *)
Definition external_connection (ev : Event) : bool :=
  match ev with
  | EInClusterConfig | EBuildConfigFromFlags _ _ | ENewKeyFromFile _ _ _ => true
  | _ => store_connection ev || scheduler_connection ev
  end.

(** A connection to the job store or to the scheduler was attempted during
    this run and failed with [e]. *)
Inductive ConnectFails (w : World) (tr : list Event) (e : error) : Prop :=
| OpenFails driver dsn :
    In (EOpen driver dsn) tr → Open_err w driver dsn = Some e →
    ConnectFails w tr e
| PingFails db :
    In (EPing db) tr → Ping_err w db = Some e → ConnectFails w tr e
| JobStoreFails db :
    In (ENewSQLJobStore db) tr → NewSQLJobStore_err w db = Some e →
    ConnectFails w tr e
| InClusterFails :
    In EInClusterConfig tr → InClusterConfig_err w = Some e →
    ConnectFails w tr e
| FromFlagsFails masterUrl path :
    In (EBuildConfigFromFlags masterUrl path) tr →
    BuildConfigFromFlags_err w masterUrl path = Some e →
    ConnectFails w tr e
| ExecutorFails cfg kc :
    In (ENewExecutor cfg kc) tr → NewExecutor_err w cfg kc = Some e →
    ConnectFails w tr e.

(** The command line or the configuration file is unusable. *)
Inductive ConfigUnusable (w : World) (args : list string) : Prop :=
| WrongArity : length args ≠ 1%nat → ConfigUnusable w args
| Unreadable path e :
    args = [path] → ReadFile w path = Fail e → ConfigUnusable w args
| Undecodable path fc e :
    args = [path] → ReadFile w path = Ok fc → Unmarshal w fc = Fail e →
    ConfigUnusable w args.

(** The configuration [RunE] works with: the decoded content of the file
    named by the only argument. *)
Definition loaded (w : World) (args : list string) (cfg : Config) : Prop :=
  ∃ path fc, args = [path] ∧ ReadFile w path = Ok fc ∧ Unmarshal w fc = Ok cfg.

(** The same world with another value behind the package-level identifier
    [logcutter.DefaultCutter]. *)
Definition with_default_cutter (c : logcutter.Cutter) (w : World) : World :=
  {| ReadFile := ReadFile w;
     Unmarshal := Unmarshal w;
     InClusterConfig_err := InClusterConfig_err w;
     BuildConfigFromFlags_err := BuildConfigFromFlags_err w;
     NewKeyFromFile_err := NewKeyFromFile_err w;
     NewFileLogStore_err := NewFileLogStore_err w;
     Open_err := Open_err w;
     Ping_err := Ping_err w;
     NewSQLJobStore_err := NewSQLJobStore_err w;
     NewExecutor_err := NewExecutor_err w;
     logcutter_DefaultCutter := c;
     Signal := Signal w |}.

(** The classifier handed to the service does not depend on the
    package-level default. *)
Definition cutter_free_of_global : Prop :=
  ∀ w flags args c s s',
    In (EServiceStart s) (trace (runCmd w flags args)) →
    In (EServiceStart s')
       (trace (runCmd (with_default_cutter c w) flags args)) →
    werft.Cutter s = werft.Cutter s'.

(** Either backend can be selected for either store by some configuration. *)
Definition backend_selectable : Prop :=
  ∀ logs jobs : store.Backend,
    ∃ w flags args s,
      In (EServiceStart s) (trace (runCmd w flags args)) ∧
      store.LogsBackend (werft.Logs s) = logs ∧
      store.JobsBackend (werft.Jobs s) = jobs.

(** ** A world in which everything is reachable *)

Definition sample_config : Config :=
  {| Service := {| WebPort := 8080; GRPCPort := 7777 |};
     Storage := {| LogStore := "/var/werft/logs";
                   JobStore := "dbname=werft sslmode=disable" |};
     Kubernetes := {| Kubeconfig := ""; Namespace := "" |};
     GitHub := {| WebhookSecret := "s3cr3t"; PrivateKeyPath := "/key.pem";
                  InstallationID := 7; AppID := 42 |} |}.

Definition sample_world : World :=
  {| ReadFile := λ p,
       if decide (p = "config.json") then Ok "{}"
       else Fail (Err "no such file or directory");
     Unmarshal := λ d,
       if decide (d = "{}") then Ok sample_config
       else Fail (Err "unexpected end of JSON input");
     InClusterConfig_err := None;
     BuildConfigFromFlags_err := λ _ _, None;
     NewKeyFromFile_err := λ _ _ _, None;
     NewFileLogStore_err := λ _, None;
     Open_err := λ _ _, None;
     Ping_err := λ _, None;
     NewSQLJobStore_err := λ _, None;
     NewExecutor_err := λ _ _, None;
     logcutter_DefaultCutter := logcutter.DefaultCutter;
     Signal := Some os.Interrupt |}.

(** The same, with a database that accepts the connection string but does
    not answer. *)
Definition unreachable_db : World :=
  {| ReadFile := ReadFile sample_world;
     Unmarshal := Unmarshal sample_world;
     InClusterConfig_err := None;
     BuildConfigFromFlags_err := λ _ _, None;
     NewKeyFromFile_err := λ _ _ _, None;
     NewFileLogStore_err := λ _, None;
     Open_err := λ _ _, None;
     Ping_err := λ _, Some (Err "dial tcp: connection refused");
     NewSQLJobStore_err := λ _, None;
     NewExecutor_err := λ _ _, None;
     logcutter_DefaultCutter := logcutter.DefaultCutter;
     Signal := Some os.Interrupt |}.


(** The service the sample world starts. *)
Definition sample_service : werft.Service :=
  {| werft.Logs := store.FileLogStore "/var/werft/logs";
     werft.Jobs :=
       store.SQLJobStore
         (sql.Opened "postgres" "dbname=werft sslmode=disable");
     werft.Executor :=
       executor.Built {| executor.Namespace := "default" |} rest.InCluster;
     werft.Cutter := logcutter.DefaultCutter;
     werft.GitHub :=
       {| werft.WebhookSecret := "s3cr3t";
          werft.Client :=
            github.NewClient (ghinstallation.KeyFromFile 42 7 "/key.pem") |};
     werft.DebugProxy := "" |}.

(** A cutter that knows no markers and files every line under [output]. *)
Definition plain_cutter : logcutter.Cutter :=
  {| logcutter.Marker := λ _, None; logcutter.DefaultSegment := "output" |}.

(** The log of the example of section 8. *)
Definition example_lines : list string :=
  ["=== prepare ==="; "cloning..."; "=== build ==="; "compiling..."].




(** Two callers that come too late for a job that has succeeded: one asks
    for [Running], one for [Failed]. *)
Definition late_requests : list (nat * store.Phase) :=
  [(0%nat, store.Running); (0%nat, store.Failed)].




(** A store that has seen one job through to success. *)
Definition finished_store : store.Store :=
  snd (store.UpdateStatus 0 store.Succeeded
    (snd (store.UpdateStatus 0 store.Running
      (snd (store.UpdateStatus 0 store.Scheduled
        (snd (store.Create "build-123" "push" store.empty))))))).

Definition finished_job : store.Job :=
  {| store.JobName := "build-123"; store.Trigger := "push";
     store.JobPhase := store.Succeeded;
     store.Transitions := [store.Created; store.Scheduled; store.Running;
                           store.Succeeded] |}.

(** ** More about the calls of RunE *)

(** Calls on the database: [sql.Open], [db.Ping], [store.NewSQLJobStore]. *)
Definition database_call (ev : Event) : bool :=
  match ev with
  | EOpen _ _ | EPing _ | ENewSQLJobStore _ => true
  | _ => false
  end.

(** Where a statement stands in the text of [RunE], top to bottom; the two
    branches of the kubeconfig [if] stand at the same place, the four
    [log.Info] calls are told apart by their message, and the places of
    [EGoStartWeb] and [EGoStartGRPC] are those of the two [go] statements. *)
Definition stage (ev : Event) : nat :=
  match ev with
  | EReadFile _ => 0
  | EUnmarshal _ => 1
  | EInClusterConfig | EBuildConfigFromFlags _ _ => 2
  | ENewKeyFromFile _ _ _ => 3
  | ENewFileLogStore _ => 4
  | ELogInfo msg =>
      if decide (msg = "connecting to database") then 5
      else if decide (msg = "connecting to kubernetes") then 9
      else if decide
                (msg = "werft is up and running. Stop with SIGINT or CTRL+C")
           then 16
      else 18
  | EOpen _ _ => 6
  | EPing _ => 7
  | ENewSQLJobStore _ => 8
  | ENewExecutor _ _ => 10
  | EExecRun _ => 11
  | EServiceStart _ => 12
  | EGoStartWeb _ _ => 13
  | EGoStartGRPC _ _ => 14
  | ESignalNotify => 15
  | EAwaitSignal => 17
  end.

(** The Kubernetes client configuration [RunE] ends up with, and the error
    of the call that builds it. *)
Definition kubeSource (cfg : Config) : rest.Config :=
  if decide (Kubeconfig (Kubernetes cfg) = "") then rest.InCluster
  else rest.FromFlags "" (Kubeconfig (Kubernetes cfg)).

Definition kubeErr (w : World) (cfg : Config) : option error :=
  if decide (Kubeconfig (Kubernetes cfg) = "") then InClusterConfig_err w
  else BuildConfigFromFlags_err w "" (Kubeconfig (Kubernetes cfg)).

(** The database handle [RunE] opens. *)
Definition database (cfg : Config) : sql.DB :=
  sql.Opened "postgres" (JobStore (Storage cfg)).

(** Every call [RunE] makes on the way to the service succeeds. *)
Definition initialised (w : World) (cfg : Config) : Prop :=
  kubeErr w cfg = None ∧
  NewKeyFromFile_err w (AppID (GitHub cfg)) (InstallationID (GitHub cfg))
                       (PrivateKeyPath (GitHub cfg)) = None ∧
  NewFileLogStore_err w (LogStore (Storage cfg)) = None ∧
  Open_err w "postgres" (JobStore (Storage cfg)) = None ∧
  Ping_err w (database cfg) = None ∧
  NewSQLJobStore_err w (database cfg) = None ∧
  NewExecutor_err w (execCfg cfg) (kubeSource cfg) = None.

(** The service value [RunE] builds from a configuration. *)
Definition serviceOf (w : World) (flags : gmap string string) (cfg : Config)
  : werft.Service :=
  let service :=
    {| werft.Logs := store.FileLogStore (LogStore (Storage cfg));
       werft.Jobs := store.SQLJobStore (database cfg);
       werft.Executor := executor.Built (execCfg cfg) (kubeSource cfg);
       werft.Cutter := logcutter_DefaultCutter w;
       werft.GitHub :=
         {| werft.WebhookSecret := WebhookSecret (GitHub cfg);
            werft.Client :=
              github.NewClient
                (ghinstallation.KeyFromFile (AppID (GitHub cfg))
                   (InstallationID (GitHub cfg))
                   (PrivateKeyPath (GitHub cfg))) |};
       werft.DebugProxy := "" |} in
  let val := GetString flags "debug-webui-proxy" in
  if decide (val = "") then service else werft.setDebugProxy val service.

(** The statements of a run in which nothing fails and a signal arrives,
    from reading the file [path] with content [fc] that decodes to [cfg] up
    to the shutdown message. *)
Definition startup (w : World) (flags : gmap string string)
  (path fc : string) (cfg : Config) : list Event :=
  [ EReadFile path;
    EUnmarshal fc;
    (if decide (Kubeconfig (Kubernetes cfg) = "") then EInClusterConfig
     else EBuildConfigFromFlags "" (Kubeconfig (Kubernetes cfg)));
    ENewKeyFromFile (AppID (GitHub cfg)) (InstallationID (GitHub cfg))
                    (PrivateKeyPath (GitHub cfg));
    ENewFileLogStore (LogStore (Storage cfg));
    ELogInfo "connecting to database";
    EOpen "postgres" (JobStore (Storage cfg));
    EPing (database cfg);
    ENewSQLJobStore (database cfg);
    ELogInfo "connecting to kubernetes";
    ENewExecutor (execCfg cfg) (kubeSource cfg);
    EExecRun (executor.Built (execCfg cfg) (kubeSource cfg));
    EServiceStart (serviceOf w flags cfg);
    EGoStartWeb (serviceOf w flags cfg) (listenAddr (WebPort (Service cfg)));
    EGoStartGRPC (serviceOf w flags cfg) (listenAddr (GRPCPort (Service cfg)));
    ESignalNotify;
    ELogInfo "werft is up and running. Stop with SIGINT or CTRL+C";
    EAwaitSignal;
    ELogInfo "Received SIGINT - shutting down" ].

(** What a run in which every call succeeds leaves behind: the whole
    script and nil when a signal is delivered, the script up to the receive
    and no return when none ever is. *)
Definition served (w : World) (flags : gmap string string)
  (path fc : string) (cfg : Config) : M unit :=
  match Signal w with
  | Some _ => (startup w flags path fc cfg, Ok tt)
  | None => (take 18 (startup w flags path fc cfg), Blocked)
  end.

(** The three ways a run can go. *)
Inductive RunView (w : World) (flags : gmap string string)
  (args : list string) : Prop :=
| RunServes path fc cfg :
    args = [path] → ReadFile w path = Ok fc → Unmarshal w fc = Ok cfg →
    initialised w cfg →
    runCmd w flags args = served w flags path fc cfg →
    RunView w flags args
| RunFailsConnecting path fc cfg e :
    args = [path] → ReadFile w path = Ok fc → Unmarshal w fc = Ok cfg →
    ¬ initialised w cfg →
    returned (runCmd w flags args) = Fail e →
    trace (runCmd w flags args)
      `prefix_of` take 11 (startup w flags path fc cfg) →
    RunView w flags args
| RunFailsLoading :
    (¬ ∃ cfg, loaded w args cfg) →
    returned (runCmd w flags args) ≠ Ok tt →
    (∃ x y, trace (runCmd w flags args)
              `prefix_of` [EReadFile x; EUnmarshal y]) →
    RunView w flags args.

(** The file system and the JSON decoder return a value or an error. *)
Definition no_panic (w : World) : Prop :=
  (∀ path msg, ReadFile w path ≠ Panic msg) ∧
  (∀ data msg, Unmarshal w data ≠ Panic msg).

(** [a] is called before [b] in the trace. *)
Definition before (a b : Event) (tr : list Event) : Prop :=
  ∃ l1 l2 l3, tr = l1 ++ a :: l2 ++ b :: l3.

(** The sample world with a GitHub key file that cannot be read. *)
Definition no_github_key : World :=
  {| ReadFile := ReadFile sample_world;
     Unmarshal := Unmarshal sample_world;
     InClusterConfig_err := None;
     BuildConfigFromFlags_err := λ _ _, None;
     NewKeyFromFile_err := λ _ _ _,
       Some (Err "could not read private key");
     NewFileLogStore_err := λ _, None;
     Open_err := λ _ _, None;
     Ping_err := λ _, None;
     NewSQLJobStore_err := λ _, None;
     NewExecutor_err := λ _ _, None;
     logcutter_DefaultCutter := logcutter.DefaultCutter;
     Signal := Some os.Interrupt |}.

(** The sample world with a logs directory that cannot be created. *)
Definition no_logs_dir : World :=
  {| ReadFile := ReadFile sample_world;
     Unmarshal := Unmarshal sample_world;
     InClusterConfig_err := None;
     BuildConfigFromFlags_err := λ _ _, None;
     NewKeyFromFile_err := λ _ _ _, None;
     NewFileLogStore_err := λ _, Some (Err "mkdir: permission denied");
     Open_err := λ _ _, None;
     Ping_err := λ _, None;
     NewSQLJobStore_err := λ _, None;
     NewExecutor_err := λ _ _, None;
     logcutter_DefaultCutter := logcutter.DefaultCutter;
     Signal := Some os.Interrupt |}.

(** ** The web UI entry point (App.tsx) *)

Module App.
(** [s.substring(start)] of JavaScript, for a string whose characters are
    single code units (a URL path is percent-encoded ASCII): the characters
    from position [start] on, nothing when [start] is past the end. *)
Definition substring (start : nat) (s : string) : string :=
  String.substring start (String.length s - start) s.

(** [`${window.location.protocol}//${window.location.host}`] *)
Definition serverUrl (protocol host : string) : string :=
  protocol +:+ "//" +:+ host.

(** The [jobName] property handed to [JobView]:
    [window.location.pathname.substring("/job/".length)]. *)
Definition jobName (pathname : string) : string :=
  substring (String.length "/job/") pathname.
End App.

(** * Properties of the run command *)

(** ** Proof tools *)

Ltac run_unfold :=
  unfold runCmd, ExactArgs, RunE, index, kubeConfig, call, emit,
    InClusterConfig, BuildConfigFromFlags, NewKeyFromFile, NewFileLogStore,
    Open, Ping, NewSQLJobStore, NewExecutor, Receive, build, trace,
    returned in *;
  unfold mbind, M_bind, mret, M_ret in *.

(** Follow [RunE] call by call, splitting on what each call returns. *)
Ltac run_step :=
  match goal with
  | |- context [ReadFile ?w ?p] => destruct (ReadFile w p) eqn:?
  | |- context [Unmarshal ?w ?d] => destruct (Unmarshal w d) eqn:?
  | |- context [decide (Kubeconfig ?k = ?b)] =>
      destruct (decide (Kubeconfig k = b))
  | |- context [InClusterConfig_err ?w] =>
      destruct (InClusterConfig_err w) eqn:?
  | |- context [BuildConfigFromFlags_err ?w ?m ?p] =>
      destruct (BuildConfigFromFlags_err w m p) eqn:?
  | |- context [NewKeyFromFile_err ?w ?a ?i ?p] =>
      destruct (NewKeyFromFile_err w a i p) eqn:?
  | |- context [NewFileLogStore_err ?w ?b] =>
      destruct (NewFileLogStore_err w b) eqn:?
  | |- context [Open_err ?w ?d ?s] => destruct (Open_err w d s) eqn:?
  | |- context [Ping_err ?w ?db] => destruct (Ping_err w db) eqn:?
  | |- context [NewSQLJobStore_err ?w ?db] =>
      destruct (NewSQLJobStore_err w db) eqn:?
  | |- context [NewExecutor_err ?w ?c ?k] =>
      destruct (NewExecutor_err w c k) eqn:?
  | |- context [Signal ?w] => destruct (Signal w) eqn:?
  | |- context [decide (?a = ?b)] => destruct (decide (a = b))
  end; simpl.

Ltac run_cases := run_unfold; simpl; repeat run_step.

(** Membership in an explicit trace, event by event. *)
Ltac in_trace :=
  repeat match goal with
  | H : False |- _ => destruct H
  | H : In _ [] |- _ => destruct H
  | H : In _ (_ :: _) |- _ => destruct H as [H | H]
  | H : _ ∨ _ |- _ => destruct H as [H | H]
  | H : @eq Event _ _ |- _ => simplify_eq
  end.

Lemma runCmd_one_arg (w : World) flags path :
  runCmd w flags [path] = RunE w flags [path].
Proof. reflexivity. Qed.

Lemma runCmd_arity (w : World) flags args :
  length args ≠ 1%nat → ∃ e, runCmd w flags args = ([], Fail e).
Proof.
  intros Hlen. unfold runCmd, ExactArgs.
  destruct (decide (length args = 1%nat)); [contradiction | eauto].
Qed.

(** C1. When a connection to the job store (opening or pinging the
    database, building the SQL job store) or to the cluster scheduler
    (building the Kubernetes client configuration or the executor) is
    attempted and fails, the run command returns that very error and none of
    [Service.Start], [StartWeb], [StartGRPC] has been invoked. *)
Theorem connection_failure_stops_startup (w : World) flags args e :
  ConnectFails w (trace (runCmd w flags args)) e →
  returned (runCmd w flags args) = Fail e ∧
  Forall (λ ev, serving ev = false) (trace (runCmd w flags args)).
Proof.
  destruct args as [| path [| ? ?]];
    [intros [] ; simpl in *; contradiction | | intros []; simpl in *; contradiction].
  rewrite runCmd_one_arg.
  run_cases; intros Hfail; (split; [| repeat constructor]);
    destruct Hfail; in_trace; congruence.
Qed.

Lemma connection_failure_stops_startup_witness :
  returned (runCmd unreachable_db ∅ ["config.json"])
    = Fail (Err "dial tcp: connection refused") ∧
  Forall (λ ev, serving ev = false)
         (trace (runCmd unreachable_db ∅ ["config.json"])).
Proof.
  apply connection_failure_stops_startup.
  apply (PingFails _ _ _
           (sql.Opened "postgres" "dbname=werft sslmode=disable")).
  - vm_compute. do 7 right. left. reflexivity.
  - reflexivity.
Defined.

(** What the service that gets started is made of. *)
Lemma started_service (w : World) flags args s :
  In (EServiceStart s) (trace (runCmd w flags args)) →
  ∃ cfg, loaded w args cfg ∧
    werft.Logs s = store.FileLogStore (LogStore (Storage cfg)) ∧
    werft.Jobs s =
      store.SQLJobStore (sql.Opened "postgres" (JobStore (Storage cfg))) ∧
    werft.Cutter s = logcutter_DefaultCutter w.
Proof.
  destruct args as [| path [| ? ?]]; [intros [] | | intros []].
  rewrite runCmd_one_arg. unfold loaded.
  run_cases; intros Hin; in_trace; eexists; (split; [eauto |]);
    repeat split.
Qed.

(** The sample world starts a service. *)
Lemma sample_world_serves (c : logcutter.Cutter) :
  ∃ s, In (EServiceStart s)
          (trace (runCmd (with_default_cutter c sample_world) ∅
                         ["config.json"])).
Proof. eexists. vm_compute. do 12 right. left. reflexivity. Qed.

(** C10. With a number of positional arguments other than one, with an
    unreadable configuration file, or with a file whose content does not
    decode into [Config], the command returns an error, and up to then it
    has opened no connection to GitHub, the database or Kubernetes and has
    not started the service. *)
Theorem unusable_config_fails_early (w : World) flags args :
  ConfigUnusable w args →
  ∃ e, returned (runCmd w flags args) = Fail e ∧
       Forall (λ ev, external_connection ev = false ∧ serving ev = false)
              (trace (runCmd w flags args)).
Proof.
  intros [Hlen | path e -> Hread | path fc e -> Hread Hdec].
  - destruct (runCmd_arity w flags args Hlen) as [e ->].
    exists e. split; [reflexivity | constructor].
  - rewrite runCmd_one_arg. run_unfold. simpl. rewrite Hread. simpl.
    exists e. split; [reflexivity | repeat constructor].
  - rewrite runCmd_one_arg. run_unfold. simpl. rewrite Hread. simpl.
    rewrite Hdec. simpl.
    exists e. split; [reflexivity | repeat constructor].
Qed.

Lemma unusable_config_fails_early_witness :
  ∃ e, returned (runCmd sample_world ∅ ["missing.json"]) = Fail e ∧
       Forall (λ ev, external_connection ev = false ∧ serving ev = false)
              (trace (runCmd sample_world ∅ ["missing.json"])).
Proof.
  apply unusable_config_fails_early.
  apply (Unreadable _ _ "missing.json" (Err "no such file or directory"));
    reflexivity.
Defined.

Lemma execCfg_namespace (cfg : Config) :
  executor.Namespace (execCfg cfg) =
    if decide (Namespace (Kubernetes cfg) = "") then "default"
    else Namespace (Kubernetes cfg).
Proof. unfold execCfg. simpl. by destruct (decide _). Qed.

(** C8. The namespace handed to [executor.NewExecutor] is the configured
    Kubernetes namespace when that is not empty, and ["default"] when it is
    the empty string. *)
Theorem executor_namespace (w : World) flags args ec kc :
  In (ENewExecutor ec kc) (trace (runCmd w flags args)) →
  ∃ cfg, loaded w args cfg ∧
    executor.Namespace ec =
      if decide (Namespace (Kubernetes cfg) = "") then "default"
      else Namespace (Kubernetes cfg).
Proof.
  destruct args as [| path [| ? ?]]; [intros [] | | intros []].
  rewrite runCmd_one_arg. unfold loaded.
  run_cases; intros Hin; in_trace; eexists; (split; [eauto |]);
    apply execCfg_namespace.
Qed.

Lemma executor_namespace_witness :
  ∃ cfg, loaded sample_world ["config.json"] cfg ∧
    executor.Namespace {| executor.Namespace := "default" |} =
      if decide (Namespace (Kubernetes cfg) = "") then "default"
      else Namespace (Kubernetes cfg).
Proof.
  apply (executor_namespace sample_world ∅ ["config.json"] _ rest.InCluster).
  vm_compute. do 10 right. left. reflexivity.
Defined.



(** C2 (amended). The classifier of the service that gets started is handed
    over explicitly, as the [Cutter] field of the [Service] value, and what
    is handed over is the package-level default
    [logcutter.DefaultCutter], whatever the arguments, the flags and the
    configuration file are. *)
Theorem service_cutter_is_package_default (w : World) flags args s :
  In (EServiceStart s) (trace (runCmd w flags args)) →
  werft.Cutter s = logcutter_DefaultCutter w.
Proof.
  intros Hin. apply started_service in Hin as (cfg & _ & _ & _ & Hcut).
  exact Hcut.
Qed.

Lemma service_cutter_is_package_default_witness :
  werft.Cutter sample_service = logcutter_DefaultCutter sample_world.
Proof.
  apply (service_cutter_is_package_default sample_world ∅ ["config.json"]).
  vm_compute. do 12 right. left. reflexivity.
Defined.

(** C2 as stated fails: changing nothing but the package-level default
    changes the classifier the service runs with. *)
Lemma cutter_depends_on_global : ¬ cutter_free_of_global.
Proof.
  intros Hfree.
  destruct (sample_world_serves logcutter.DefaultCutter) as [s Hs].
  destruct (sample_world_serves plain_cutter) as [s' Hs'].
  pose proof (Hfree sample_world ∅ ["config.json"] plain_cutter s s' Hs Hs')
    as Heq.
  apply started_service in Hs as (_ & _ & _ & _ & Hc).
  apply started_service in Hs' as (_ & _ & _ & _ & Hc').
  rewrite Hc, Hc' in Heq. simpl in Heq.
  apply (f_equal logcutter.DefaultSegment) in Heq. discriminate Heq.
Qed.

(** C3 (amended). The service that gets started always has the file-based
    log store, rooted at the configured logs path, and the relational job
    store, over the PostgreSQL handle opened with the configured connection
    string: the configuration says where each store is, not of which kind. *)
Theorem stores_are_fixed (w : World) flags args s :
  In (EServiceStart s) (trace (runCmd w flags args)) →
  ∃ cfg, loaded w args cfg ∧
    werft.Logs s = store.FileLogStore (LogStore (Storage cfg)) ∧
    werft.Jobs s =
      store.SQLJobStore (sql.Opened "postgres" (JobStore (Storage cfg))) ∧
    store.LogsBackend (werft.Logs s) = store.FileBased ∧
    store.JobsBackend (werft.Jobs s) = store.Relational.
Proof.
  intros Hin. apply started_service in Hin as (cfg & Hcfg & Hl & Hj & _).
  exists cfg. rewrite Hl, Hj. repeat split; assumption.
Qed.

Lemma stores_are_fixed_witness :
  ∃ cfg, loaded sample_world ["config.json"] cfg ∧
    werft.Logs sample_service = store.FileLogStore (LogStore (Storage cfg)) ∧
    werft.Jobs sample_service =
      store.SQLJobStore (sql.Opened "postgres" (JobStore (Storage cfg))) ∧
    store.LogsBackend (werft.Logs sample_service) = store.FileBased ∧
    store.JobsBackend (werft.Jobs sample_service) = store.Relational.
Proof.
  apply (stores_are_fixed sample_world ∅ ["config.json"]).
  vm_compute. do 12 right. left. reflexivity.
Defined.

(** C3 as stated fails: no configuration gives the service a relational
    log store. *)
Lemma backend_not_selectable : ¬ backend_selectable.
Proof.
  intros Hsel.
  destruct (Hsel store.Relational store.Relational)
    as (w & flags & args & s & Hin & Hlogs & _).
  apply started_service in Hin as (cfg & _ & Hl & _).
  rewrite Hl in Hlogs. discriminate Hlogs.
Qed.

(** * Properties of the log cutter *)

Section cutter.
Import logcutter.
Variable c : Cutter.

(** A move of a run hands over to its output exactly what it takes away
    from what is left to produce. *)
Lemma advance_rest (r : Run) :
  Out (advance c r) ++ rest c (advance c r) = Out r ++ rest c r.
Proof.
  unfold advance, rest. destruct r as [cur pending out fin]; simpl.
  destruct fin; simpl; [reflexivity |].
  destruct pending as [| l ls]; simpl.
  - rewrite app_nil_r. reflexivity.
  - destruct (step c cur l) as [evs cur'] eqn:Hstep; simpl.
    rewrite <- app_assoc. reflexivity.
Qed.

(** A move brings a run that is not through one move closer to its end. *)
Lemma advance_todo (r : Run) : todo (advance c r) = pred (todo r).
Proof.
  unfold advance, todo. destruct r as [cur pending out fin]; simpl.
  destruct fin; simpl; [reflexivity |].
  destruct pending as [| l ls]; simpl; [reflexivity |].
  destruct (step c cur l) as [evs cur']. reflexivity.
Qed.

(** Whatever the schedule, the moves of the other jobs leave a run alone:
    output and remainder of each run still add up to the same events, and
    the run has come closer to its end by as many moves as it was given. *)
Lemma interleave_run sched (pool : gmap nat Run) j r0 :
  pool !! j = Some r0 →
  ∃ r, interleave c sched pool !! j = Some r ∧
       Out r ++ rest c r = Out r0 ++ rest c r0 ∧
       todo r = (todo r0 - length (filter (eq j) sched))%nat.
Proof.
  revert pool r0. induction sched as [| k sched IH]; intros pool r0 Hj; simpl.
  - exists r0. rewrite Nat.sub_0_r. auto.
  - destruct (decide (k = j)) as [-> | Hne].
    + destruct (IH (alter (advance c) j pool) (advance c r0)) as (r & Hr & Hout & Htodo).
      { rewrite lookup_alter_eq, Hj. reflexivity. }
      exists r. split; [exact Hr |]. split.
      * rewrite Hout. apply advance_rest.
      * rewrite Htodo, advance_todo.
        rewrite filter_cons_True by reflexivity. simpl. lia.
    + destruct (IH (alter (advance c) k pool) r0) as (r & Hr & Hout & Htodo).
      { rewrite lookup_alter_ne by assumption. exact Hj. }
      exists r. split; [exact Hr |]. split; [exact Hout |].
      rewrite Htodo. rewrite filter_cons_False by congruence. reflexivity.
Qed.

(** A job that is given one move more than it has lines gets through,
    whatever else is scheduled in between. *)
Lemma interleave_finishes sched (inputs : gmap nat (list string)) j lines :
  inputs !! j = Some lines →
  (length lines < length (filter (eq j) sched))%nat →
  ∃ r, interleave c sched (feed inputs) !! j = Some r ∧ Finished r = true.
Proof.
  intros Hj Hmoves.
  destruct (interleave_run sched (feed inputs) j (start lines))
    as (r & Hr & _ & Htodo).
  { unfold feed. rewrite lookup_fmap, Hj. reflexivity. }
  exists r. split; [exact Hr |].
  unfold todo in Htodo. simpl in Htodo.
  destruct (Finished r); [reflexivity | lia].
Qed.

End cutter.



(** Whatever the marker syntax is: a cutter that reads the first and the
    third line of the example as the markers of [prepare] and [build], and
    the other two as plain lines, cuts the example into these two
    segments. *)
Lemma example_segments (c : logcutter.Cutter) :
  logcutter.Marker c "=== prepare ===" = Some "prepare" →
  logcutter.Marker c "cloning..." = None →
  logcutter.Marker c "=== build ===" = Some "build" →
  logcutter.Marker c "compiling..." = None →
  logcutter.segments (logcutter.Classify c example_lines)
    = [("prepare", ["cloning..."]); ("build", ["compiling..."])].
Proof.
  intros H1 H2 H3 H4.
  unfold logcutter.Classify, example_lines. simpl.
  unfold logcutter.step. rewrite H1. simpl. rewrite H2. simpl.
  rewrite H3. simpl. rewrite H4. reflexivity.
Qed.

(** C7. The default cutter turns the four lines of the example into the
    events [Open prepare, Line cloning..., Close, Open build,
    Line compiling..., Close], that is into exactly two segments, [prepare]
    holding ["cloning..."] and [build] holding ["compiling..."]; the two
    marker lines appear as [Open] events only. *)
Theorem default_cutter_example :
  logcutter.Classify logcutter.DefaultCutter example_lines
    = [logcutter.Open "prepare"; logcutter.Line "cloning...";
       logcutter.Close;
       logcutter.Open "build"; logcutter.Line "compiling...";
       logcutter.Close] ∧
  logcutter.segments (logcutter.Classify logcutter.DefaultCutter example_lines)
    = [("prepare", ["cloning..."]); ("build", ["compiling..."])].
Proof. split; reflexivity. Qed.

(** * Properties of the job store *)

Section job_store.
Import store.

Lemma violates_false cur new :
  violates cur new = false →
  (rank cur ≤ rank new)%nat ∧ (terminal cur = true → new = cur).
Proof.
  unfold violates. intros Hv.
  apply orb_false_iff in Hv as [Hrank Hterm].
  apply Nat.ltb_ge in Hrank. split; [exact Hrank |].
  intros Hcur. rewrite Hcur in Hterm. simpl in Hterm.
  apply negb_false_iff, bool_decide_eq_true in Hterm. exact Hterm.
Qed.

Lemma violates_true cur new :
  violates cur new = true →
  (rank new < rank cur)%nat ∨ (terminal cur = true ∧ new ≠ cur).
Proof.
  unfold violates. intros Hv.
  apply orb_true_iff in Hv as [Hrank | Hterm].
  - left. apply Nat.ltb_lt. exact Hrank.
  - right. apply andb_true_iff in Hterm as [Hcur Hne].
    apply negb_true_iff, bool_decide_eq_false in Hne. auto.
Qed.

Lemma NonDecreasing_snoc l cur p :
  NonDecreasing l → last l = Some cur → (rank cur ≤ rank p)%nat →
  NonDecreasing (l ++ [p]).
Proof.
  induction l as [| a [| b l] IH]; intros Hnd Hlast Hle.
  - discriminate Hlast.
  - simpl in *. simplify_eq. split; [assumption | exact I].
  - destruct Hnd as [Hab Hnd]. split; [assumption |].
    apply IH; assumption.
Qed.

Lemma NonDecreasing_snoc_inv l cur p :
  NonDecreasing (l ++ [p]) → last l = Some cur → (rank cur ≤ rank p)%nat.
Proof.
  induction l as [| a [| b l] IH]; intros Hnd Hlast.
  - discriminate Hlast.
  - simpl in *. simplify_eq. tauto.
  - destruct Hnd as [_ Hnd]. apply IH; assumption.
Qed.

Lemma terminal_rank p : terminal p = true ↔ rank p = 3%nat.
Proof. destruct p; simpl; split; intros; congruence || lia. Qed.

Lemma rank_max p : (rank p ≤ 3)%nat.
Proof. destruct p; simpl; lia. Qed.

Lemma JobInv_created name trigger :
  JobInv {| JobName := name; Trigger := trigger; JobPhase := Created;
            Transitions := [Created] |}.
Proof.
  repeat split; simpl.
  intros p Hp Hterm. apply list_elem_of_singleton in Hp. exact Hp.
Qed.

Lemma JobInv_setPhase j p :
  JobInv j → violates (JobPhase j) p = false → JobInv (setPhase p j).
Proof.
  intros (Hnd & Hlast & Hterm) Hv.
  apply violates_false in Hv as [Hle Hsame].
  unfold JobInv, setPhase; simpl. split; [| split].
  - eapply NonDecreasing_snoc; eassumption.
  - apply last_snoc.
  - intros q Hq Hq_term. apply elem_of_app in Hq as [Hq | Hq].
    + pose proof (Hterm q Hq Hq_term) as ->. symmetry. auto.
    + apply list_elem_of_singleton in Hq. exact Hq.
Qed.

Lemma JobInv_monotonic j : JobInv j → Monotonic (Transitions j).
Proof.
  intros (Hnd & _ & Hterm). split; [exact Hnd |].
  intros p q Hp Hq Hp_term Hq_term.
  rewrite (Hterm p Hp Hp_term), (Hterm q Hq Hq_term). reflexivity.
Qed.

(** On a record that satisfies the invariant, the check on the current
    phase alone decides whether the log would still satisfy it. *)
Lemma violates_iff j p :
  JobInv j → violates (JobPhase j) p = true ↔ Violates j p.
Proof.
  intros Hinv. unfold Violates. split.
  - intros Hv [Hnd Hone]. destruct Hinv as (_ & Hlast & _).
    pose proof (NonDecreasing_snoc_inv _ _ _ Hnd Hlast) as Hle.
    apply violates_true in Hv as [Hlt | [Hcur Hne]]; [lia |].
    apply Hne. apply Hone.
    + apply elem_of_app. right. apply list_elem_of_singleton. reflexivity.
    + apply last_Some in Hlast as [l ->]. apply elem_of_app. left.
      apply elem_of_app. right. apply list_elem_of_singleton. reflexivity.
    + apply terminal_rank. apply terminal_rank in Hcur. pose proof (rank_max p). lia.
    + exact Hcur.
  - intros Hviol. destruct (violates (JobPhase j) p) eqn:Hv; [reflexivity |].
    exfalso. apply Hviol.
    apply (JobInv_monotonic (setPhase p j)), JobInv_setPhase; assumption.
Qed.

Lemma Reachable_inv s :
  Reachable s → ∀ id j, Records s !! id = Some j → JobInv j.
Proof.
  induction 1 as [| s name trigger Hreach IH | s id p Hreach IH];
    intros id' j' Hget.
  - simpl in Hget. rewrite lookup_empty in Hget. discriminate Hget.
  - unfold Create in Hget. simpl in Hget.
    destruct (decide (NextID s = id')) as [Heq | Hne].
    + subst id'. rewrite lookup_insert_eq in Hget. simplify_eq.
      apply JobInv_created.
    + rewrite lookup_insert_ne in Hget by assumption. eauto.
  - unfold UpdateStatus in Hget.
    destruct (Records s !! id) as [j |] eqn:Hj; [| eauto].
    destruct (violates (JobPhase j) p) eqn:Hv; [eauto |].
    simpl in Hget. destruct (decide (id = id')) as [Heq | Hne].
    + subst id'. rewrite lookup_insert_eq in Hget. simplify_eq.
      apply JobInv_setPhase; eauto.
    + rewrite lookup_insert_ne in Hget by assumption. eauto.
Qed.

Lemma after_reachable ops n : Reachable (after ops n).
Proof.
  induction n as [| n IH]; simpl; [constructor |].
  destruct (ops n); simpl; constructor; exact IH.
Qed.
End job_store.

Section callers.
Import store.

(** Read and write of one caller, with nothing in between, are the call. *)
Lemma read_write_is_update id p s :
  (decide_write p (Records s !! id), write_back id p (Records s !! id) s)
    = UpdateStatus id p s.
Proof.
  unfold decide_write, write_back, UpdateStatus.
  destruct (Records s !! id) as [j |]; [| reflexivity].
  destruct (violates (JobPhase j) p); reflexivity.
Qed.

Lemma write_back_other id id' p seen s :
  id' ≠ id → Records (write_back id p seen s) !! id' = Records s !! id'.
Proof.
  intros Hne. unfold write_back. destruct seen as [j |]; [| reflexivity].
  destruct (violates (JobPhase j) p); [reflexivity |]. simpl.
  apply lookup_insert_ne. congruence.
Qed.

Lemma holds_exists id (calls : list Call) k p seen :
  calls !! k = Some (Holding id p seen) → existsb (holds id) calls = true.
Proof.
  intros Hk. apply existsb_exists. exists (Holding id p seen). split.
  - apply list_elem_of_In, list_elem_of_lookup. eauto.
  - simpl. apply bool_decide_eq_true. reflexivity.
Qed.

Lemma submit_inv s requests : Reachable s → SysInv (submit s requests).
Proof.
  intros Hs. unfold submit. split; [exact Hs |]. simpl.
  split.
  - intros i id p seen Hi. rewrite list_lookup_fmap in Hi.
    destruct (requests !! i); discriminate Hi.
  - intros i i' id p p' seen seen' Hi. rewrite list_lookup_fmap in Hi.
    destruct (requests !! i); discriminate Hi.
Qed.

(** No move of any caller breaks what the interleaving keeps true. *)
Lemma move_inv i sys : SysInv sys → SysInv (move i sys).
Proof.
  intros (Hreach & Hseen & Hone). unfold move.
  destruct (Calls sys !! i) as [[id p | id p seen | id p r] |] eqn:Hi;
    [| | split; [| split]; assumption ..].
  - (* the caller begins *)
    destruct (existsb (holds id) (Calls sys)) eqn:Hfree;
      [split; [| split]; assumption |].
    pose proof (lookup_lt_Some _ _ _ Hi) as Hlt.
    split; [exact Hreach |]. simpl. split.
    + intros k id' p' seen' Hk. destruct (decide (k = i)) as [-> | Hne].
      * rewrite list_lookup_insert_eq in Hk by assumption. simplify_eq.
        reflexivity.
      * rewrite list_lookup_insert_ne in Hk by congruence. eauto.
    + intros k k' id' p1 p2 seen1 seen2 Hk Hk'.
      destruct (decide (k = i)) as [-> | Hne], (decide (k' = i)) as [-> | Hne'];
        try reflexivity.
      * rewrite list_lookup_insert_eq in Hk by assumption. simplify_eq.
        rewrite list_lookup_insert_ne in Hk' by congruence.
        rewrite (holds_exists _ _ _ _ _ Hk') in Hfree. discriminate Hfree.
      * rewrite list_lookup_insert_eq in Hk' by assumption. simplify_eq.
        rewrite list_lookup_insert_ne in Hk by congruence.
        rewrite (holds_exists _ _ _ _ _ Hk) in Hfree. discriminate Hfree.
      * rewrite list_lookup_insert_ne in Hk, Hk' by congruence. eauto.
  - (* the caller writes and returns *)
    pose proof (lookup_lt_Some _ _ _ Hi) as Hlt.
    pose proof (Hseen _ _ _ _ Hi) as ->.
    split; [| split]; simpl.
    + pose proof (read_write_is_update id p (Stored sys)) as Hupd.
      replace (write_back id p (Records (Stored sys) !! id) (Stored sys))
        with (snd (UpdateStatus id p (Stored sys)))
        by (rewrite <- Hupd; reflexivity).
      constructor. exact Hreach.
    + intros k id' p' seen' Hk. destruct (decide (k = i)) as [-> | Hne].
      * rewrite list_lookup_insert_eq in Hk by assumption. discriminate Hk.
      * rewrite list_lookup_insert_ne in Hk by congruence.
        rewrite write_back_other; [eauto |].
        intros ->. apply Hne. eauto.
    + intros k k' id' p1 p2 seen1 seen2 Hk Hk'.
      destruct (decide (k = i)) as [-> | Hne];
        [rewrite list_lookup_insert_eq in Hk by assumption; discriminate Hk |].
      destruct (decide (k' = i)) as [-> | Hne'];
        [rewrite list_lookup_insert_eq in Hk' by assumption; discriminate Hk' |].
      rewrite list_lookup_insert_ne in Hk, Hk' by congruence. eauto.
Qed.

Lemma schedule_inv sched sys : SysInv sys → SysInv (schedule sched sys).
Proof.
  revert sys. induction sched as [| i sched IH]; intros sys Hinv; simpl.
  - exact Hinv.
  - apply IH, move_inv, Hinv.
Qed.

(** The second move of a caller has the effect of the whole call, made on
    the store as it is at that moment. *)
Lemma move_holding i sys id p seen :
  SysInv sys → Calls sys !! i = Some (Holding id p seen) →
  move i sys =
    {| Stored := snd (UpdateStatus id p (Stored sys));
       Calls := <[i := Returned id p (fst (UpdateStatus id p (Stored sys)))]>
                  (Calls sys) |}.
Proof.
  intros (_ & Hseen & _) Hi. unfold move. rewrite Hi.
  rewrite (Hseen _ _ _ _ Hi), <- read_write_is_update. reflexivity.
Qed.
End callers.





(** C5. Callers of [UpdateStatus] run concurrently, each reading the record
    and then writing it, their moves interleaved by any schedule and
    serialized by job id only. Whenever a caller is about to write, its call
    takes effect as the one indivisible step [UpdateStatus] on the store as
    it then is (atomicity); that step is answered with [Conflict] and leaves
    the store, hence the stored phase, exactly as it was if and only if
    recording the requested phase would break the monotonic-phase invariant
    of the job's log. *)
Theorem update_status_conflict (s0 : store.Store)
  (requests : list (nat * store.Phase)) (sched : list nat)
  (i id : nat) (p : store.Phase) (seen : option store.Job) (j : store.Job) :
  store.Reachable s0 →
  store.Calls (store.schedule sched (store.submit s0 requests)) !! i
    = Some (store.Holding id p seen) →
  store.Get id (store.Stored (store.schedule sched (store.submit s0 requests)))
    = Some j →
  let sys := store.schedule sched (store.submit s0 requests) in
  store.move i sys =
    {| store.Stored := snd (store.UpdateStatus id p (store.Stored sys));
       store.Calls :=
         <[i := store.Returned id p
                  (fst (store.UpdateStatus id p (store.Stored sys)))]>
           (store.Calls sys) |} ∧
  (store.Violates j p ↔
   store.UpdateStatus id p (store.Stored sys)
     = (store.Conflict, store.Stored sys)) ∧
  (store.Violates j p →
   store.Get id (store.Stored (store.move i sys)) = Some j).
Proof.
  intros Hs0 Hcall Hget sys. subst sys.
  set (sys := store.schedule sched (store.submit s0 requests)) in *.
  assert (store.SysInv sys) as Hinv
    by (apply schedule_inv, submit_inv, Hs0).
  pose proof (move_holding i sys id p seen Hinv Hcall) as Hmove.
  destruct Hinv as (Hreach & _ & _).
  pose proof (Reachable_inv _ Hreach id j Hget) as Hjob.
  assert (store.Violates j p ↔
          store.UpdateStatus id p (store.Stored sys)
            = (store.Conflict, store.Stored sys)) as Hiff.
  { rewrite <- (violates_iff j p Hjob). unfold store.UpdateStatus.
    unfold store.Get in Hget. rewrite Hget.
    destruct (store.violates (store.JobPhase j) p); split;
      intros; congruence || discriminate. }
  split; [exact Hmove | split; [exact Hiff |]].
  intros Hviol. rewrite Hmove. simpl.
  apply Hiff in Hviol. rewrite Hviol. exact Hget.
Qed.

Lemma update_status_conflict_witness :
  let sys := store.schedule [0%nat] (store.submit finished_store late_requests) in
  store.move 0 sys =
    {| store.Stored :=
         snd (store.UpdateStatus 0 store.Running (store.Stored sys));
       store.Calls :=
         <[0%nat := store.Returned 0 store.Running
                      (fst (store.UpdateStatus 0 store.Running
                              (store.Stored sys)))]>
           (store.Calls sys) |} ∧
  (store.Violates finished_job store.Running ↔
   store.UpdateStatus 0 store.Running (store.Stored sys)
     = (store.Conflict, store.Stored sys)) ∧
  (store.Violates finished_job store.Running →
   store.Get 0 (store.Stored (store.move 0 sys)) = Some finished_job).
Proof.
  apply (update_status_conflict finished_store late_requests [0%nat]
           0%nat 0%nat store.Running (Some finished_job) finished_job).
  - unfold finished_store. repeat constructor.
  - vm_compute. reflexivity.
  - vm_compute. reflexivity.
Defined.

(** * Further properties of the run command *)

(** X1. When the GitHub application key cannot be loaded, the command
    returns that error; no store and no scheduler has been contacted and
    the service has not been started. *)
Theorem github_key_failure_stops_startup (w : World) flags args a i p e :
  In (ENewKeyFromFile a i p) (trace (runCmd w flags args)) →
  NewKeyFromFile_err w a i p = Some e →
  returned (runCmd w flags args) = Fail e ∧
  Forall (λ ev, store_connection ev = false ∧
                scheduler_connection ev = false ∧ serving ev = false)
         (trace (runCmd w flags args)).
Proof.
  destruct args as [| path [| ? ?]]; [intros [] | | intros []].
  rewrite runCmd_one_arg.
  run_cases; intros Hin Herr; in_trace;
    (split; [congruence | repeat constructor]).
Qed.

Lemma github_key_failure_stops_startup_witness :
  returned (runCmd no_github_key ∅ ["config.json"])
    = Fail (Err "could not read private key") ∧
  Forall (λ ev, store_connection ev = false ∧
                scheduler_connection ev = false ∧ serving ev = false)
         (trace (runCmd no_github_key ∅ ["config.json"])).
Proof.
  apply (github_key_failure_stops_startup no_github_key ∅ ["config.json"]
           42 7 "/key.pem").
  - vm_compute. do 3 right. left. reflexivity.
  - reflexivity.
Defined.

(** X2. When the file log store cannot be set up, the command returns that
    error without having touched the database or the scheduler and without
    having started the service. *)
Theorem log_store_failure_stops_startup (w : World) flags args base e :
  In (ENewFileLogStore base) (trace (runCmd w flags args)) →
  NewFileLogStore_err w base = Some e →
  returned (runCmd w flags args) = Fail e ∧
  Forall (λ ev, database_call ev = false ∧
                scheduler_connection ev = false ∧ serving ev = false)
         (trace (runCmd w flags args)).
Proof.
  destruct args as [| path [| ? ?]]; [intros [] | | intros []].
  rewrite runCmd_one_arg.
  run_cases; intros Hin Herr; in_trace;
    (split; [congruence | repeat constructor]).
Qed.

Lemma log_store_failure_stops_startup_witness :
  returned (runCmd no_logs_dir ∅ ["config.json"])
    = Fail (Err "mkdir: permission denied") ∧
  Forall (λ ev, database_call ev = false ∧
                scheduler_connection ev = false ∧ serving ev = false)
         (trace (runCmd no_logs_dir ∅ ["config.json"])).
Proof.
  apply (log_store_failure_stops_startup no_logs_dir ∅ ["config.json"]
           "/var/werft/logs").
  - vm_compute. do 4 right. left. reflexivity.
  - reflexivity.
Defined.


(** ** Every run follows one script *)

(** A run in which every call succeeds executes the script, up to the
    receive at least, and returns nil if a signal is delivered. *)
Lemma run_initialised (w : World) flags path fc cfg :
  ReadFile w path = Ok fc → Unmarshal w fc = Ok cfg → initialised w cfg →
  runCmd w flags [path] = served w flags path fc cfg.
Proof.
  intros Hread Hdec Hinit.
  unfold initialised, kubeErr, kubeSource, database in Hinit.
  destruct Hinit as (Hk & Hg & Hl & Ho & Hp & Hj & He).
  rewrite runCmd_one_arg.
  unfold served, startup, serviceOf, kubeSource, database.
  run_unfold. simpl.
  rewrite Hread. simpl. rewrite Hdec. simpl.
  destruct (decide (Kubeconfig (Kubernetes cfg) = "")); simpl;
    rewrite Hk; simpl; rewrite Hg; simpl; rewrite Hl; simpl;
    rewrite Ho; simpl; rewrite Hp; simpl; rewrite Hj; simpl;
    rewrite He; simpl; destruct (Signal w); reflexivity.
Qed.

(** Any other run with a loaded configuration returns an error after an
    initial part of the script that stops at the latest with the call that
    builds the executor. *)
Lemma run_not_initialised (w : World) flags path fc cfg :
  ReadFile w path = Ok fc → Unmarshal w fc = Ok cfg → ¬ initialised w cfg →
  ∃ e, returned (runCmd w flags [path]) = Fail e ∧
       trace (runCmd w flags [path])
         `prefix_of` take 11 (startup w flags path fc cfg).
Proof.
  intros Hread Hdec Hinit.
  unfold initialised, kubeErr, kubeSource, database in Hinit.
  rewrite runCmd_one_arg. unfold startup, serviceOf, kubeSource, database.
  run_unfold. simpl.
  rewrite Hread. simpl. rewrite Hdec. simpl.
  repeat run_step;
    try (exfalso; apply Hinit; repeat split; assumption);
    (eexists; split; [reflexivity | eexists; reflexivity]).
Qed.

(** Without a loaded configuration the run ends with the file. *)
Lemma run_not_loaded (w : World) flags args :
  (¬ ∃ cfg, loaded w args cfg) →
  returned (runCmd w flags args) ≠ Ok tt ∧
  (∀ msg, no_panic w → returned (runCmd w flags args) ≠ Panic msg) ∧
  ∃ x y, trace (runCmd w flags args) `prefix_of` [EReadFile x; EUnmarshal y].
Proof.
  intros Hno. destruct args as [| path [| ? ?]];
    [repeat split; [discriminate .. | exists "", ""; eexists; reflexivity] | |
     repeat split; [discriminate .. | exists "", ""; eexists; reflexivity]].
  rewrite runCmd_one_arg. run_unfold. simpl.
  destruct (ReadFile w path) as [fc | e | msg |] eqn:Hread; simpl.
  - destruct (Unmarshal w fc) as [cfg | e | msg |] eqn:Hdec; simpl.
    + exfalso. apply Hno. exists cfg, path, fc. repeat split; assumption.
    + repeat split; [discriminate .. | exists path, fc; eexists; reflexivity].
    + repeat split; [discriminate | | exists path, fc; eexists; reflexivity].
      intros msg' [_ Hnp] Heq. apply (Hnp fc msg). exact Hdec.
    + repeat split; [discriminate .. | exists path, fc; eexists; reflexivity].
  - repeat split; [discriminate .. | exists path, ""; eexists; reflexivity].
  - repeat split; [discriminate | | exists path, ""; eexists; reflexivity].
    intros msg' [Hnp _] Heq. apply (Hnp path msg). exact Hread.
  - repeat split; [discriminate .. | exists path, ""; eexists; reflexivity].
Qed.

Lemma no_error_dec (o : option error) : {o = None} + {o ≠ None}.
Proof. destruct o; [right; discriminate | left; reflexivity]. Qed.

Lemma initialised_dec (w : World) cfg :
  {initialised w cfg} + {¬ initialised w cfg}.
Proof.
  unfold initialised.
  repeat match goal with
  | |- {?o = None ∧ _} + {_} =>
      destruct (no_error_dec o) as [-> | ?]; [| right; intros [? _]; congruence]
  | |- {?o = None} + {_} =>
      destruct (no_error_dec o) as [-> | ?]; [| right; congruence]
  | |- {None = None ∧ ?P} + {_} =>
      cut ({P} + {¬ P}); [intros [? | ?]; [left; split; auto | right; tauto] |]
  end.
  left. reflexivity.
Qed.

Lemma loaded_intro (w : World) path fc cfg :
  ReadFile w path = Ok fc → Unmarshal w fc = Ok cfg → loaded w [path] cfg.
Proof. intros. exists path, fc. auto. Qed.

(** Whether a configuration gets loaded can be read off the world. *)
Lemma classic_loaded (w : World) args :
  (∃ cfg, loaded w args cfg) ∨ ¬ ∃ cfg, loaded w args cfg.
Proof.
  destruct args as [| path [| ? ?]];
    [right; intros (cfg & p & fc & Heq & _); discriminate Heq | |
     right; intros (cfg & p & fc & Heq & _); discriminate Heq].
  destruct (ReadFile w path) as [fc | e | msg |] eqn:Hread;
    [| right; intros (cfg & p & fc' & Heq & Hr & Hu); simplify_eq; congruence ..].
  destruct (Unmarshal w fc) as [cfg | e | msg |] eqn:Hdec;
    [| right; intros (cfg & p & fc' & Heq & Hr & Hu); simplify_eq; congruence ..].
  left. exists cfg. apply (loaded_intro w path fc cfg); assumption.
Qed.

Lemma run_view (w : World) flags args : RunView w flags args.
Proof.
  destruct (classic_loaded w args) as [(cfg & Hload) | Hno].
  - destruct Hload as (path & fc & -> & Hread & Hdec).
    destruct (initialised_dec w cfg) as [Hinit | Hinit].
    + eapply RunServes; eauto using run_initialised.
    + destruct (run_not_initialised w flags path fc cfg Hread Hdec Hinit)
        as (e & Hret & Hpre).
      eapply RunFailsConnecting; eauto.
  - destruct (run_not_loaded w flags args Hno) as (Hret & _ & Hpre).
    apply RunFailsLoading; assumption.
Qed.

Lemma in_prefix {A : Type} (x : A) (l1 l2 : list A) :
  l1 `prefix_of` l2 → In x l1 → In x l2.
Proof. intros [k ->] Hin. apply in_or_app. left. exact Hin. Qed.

Lemma served_prefix (w : World) flags path fc cfg :
  trace (served w flags path fc cfg) `prefix_of` startup w flags path fc cfg.
Proof.
  unfold served. destruct (Signal w); unfold trace; cbn [fst].
  - exists []. symmetry. apply app_nil_r.
  - exists (drop 18 (startup w flags path fc cfg)). symmetry. apply take_drop.
Qed.

Lemma served_returned (w : World) flags path fc cfg :
  returned (served w flags path fc cfg)
    = match Signal w with Some _ => Ok tt | None => Blocked end.
Proof. unfold served. destruct (Signal w); reflexivity. Qed.

(** Splitting on where an event of the script can stand. *)
Ltac in_startup H :=
  unfold startup, kubeSource, database in H; simpl in H;
  try match type of H with
      | context [decide (Kubeconfig ?k = ?b)] =>
          destruct (decide (Kubeconfig k = b))
      end;
  in_trace.

(** A call past the decoding of the file belongs to the script of the
    loaded configuration. *)
Lemma loaded_call (w : World) flags args ev :
  In ev (trace (runCmd w flags args)) → (1 < stage ev)%nat →
  ∃ path fc cfg,
    args = [path] ∧ ReadFile w path = Ok fc ∧ Unmarshal w fc = Ok cfg ∧
    In ev (startup w flags path fc cfg).
Proof.
  intros Hin Hstage.
  destruct (run_view w flags args)
    as [path fc cfg -> Hr Hu Hinit Hrun
       | path fc cfg e -> Hr Hu Hinit Hret Hpre
       | Hno Hret (x & y & Hpre)].
  - rewrite Hrun in Hin. apply (in_prefix _ _ _ (served_prefix _ _ _ _ _)) in Hin.
    eauto 10.
  - apply (in_prefix _ _ _ Hpre) in Hin.
    exists path, fc, cfg. repeat split; try assumption.
    unfold startup in *. simpl in *. tauto.
  - apply (in_prefix _ _ _ Hpre) in Hin. exfalso.
    in_trace; simpl in Hstage; lia.
Qed.

(** A statement past the building of the executor is executed only by a
    run in which every call succeeds. *)
Lemma late_call (w : World) flags args ev :
  In ev (trace (runCmd w flags args)) → (10 < stage ev)%nat →
  ∃ path fc cfg,
    args = [path] ∧ ReadFile w path = Ok fc ∧ Unmarshal w fc = Ok cfg ∧
    initialised w cfg ∧
    runCmd w flags args = served w flags path fc cfg ∧
    In ev (startup w flags path fc cfg).
Proof.
  intros Hin Hstage.
  destruct (run_view w flags args)
    as [path fc cfg -> Hr Hu Hinit Hrun
       | path fc cfg e -> Hr Hu Hinit Hret Hpre
       | Hno Hret (x & y & Hpre)].
  - exists path, fc, cfg.
    refine (conj eq_refl (conj Hr (conj Hu (conj Hinit (conj Hrun _))))).
    rewrite Hrun in Hin.
    exact (in_prefix _ _ _ (served_prefix _ _ _ _ _) Hin).
  - apply (in_prefix _ _ _ Hpre) in Hin. exfalso.
    in_startup Hin; simpl in Hstage; lia.
  - apply (in_prefix _ _ _ Hpre) in Hin. exfalso.
    in_trace; simpl in Hstage; lia.
Qed.

(** X3. The command returns nil exactly when the configuration was loaded,
    every call on the way to the service succeeded (building the Kubernetes
    client configuration, loading the GitHub key, setting up the log store,
    opening and pinging the database, building the job store and building
    the executor) and a signal is delivered to the waiting process; with all
    calls succeeding and no signal ever delivered it does not return. *)
Theorem returns_nil_iff_initialised (w : World) flags args :
  (returned (runCmd w flags args) = Ok tt ↔
   (∃ cfg, loaded w args cfg ∧ initialised w cfg) ∧ Signal w ≠ None) ∧
  ((∃ cfg, loaded w args cfg ∧ initialised w cfg) → Signal w = None →
   returned (runCmd w flags args) = Blocked).
Proof.
  split; [split |].
  - intros Hok.
    destruct (run_view w flags args)
      as [path fc cfg -> Hr Hu Hinit Hrun
         | path fc cfg e -> Hr Hu Hinit Hret Hpre
         | Hno Hret _].
    + rewrite Hrun, served_returned in Hok. split.
      * exists cfg. split; [apply (loaded_intro w path fc cfg) |]; assumption.
      * destruct (Signal w); [discriminate | discriminate Hok].
    + congruence.
    + contradiction.
  - intros [(cfg & (path & fc & -> & Hr & Hu) & Hinit) Hsig].
    rewrite (run_initialised w flags path fc cfg Hr Hu Hinit), served_returned.
    destruct (Signal w); [reflexivity | contradiction].
  - intros (cfg & (path & fc & -> & Hr & Hu) & Hinit) Hsig.
    rewrite (run_initialised w flags path fc cfg Hr Hu Hinit), served_returned.
    rewrite Hsig. reflexivity.
Qed.

(** X4. Whenever one of the statements [service.Start()],
    [go service.StartWeb(..)], [go service.StartGRPC(..)] is executed, the
    configuration was loaded and every call before it succeeded; from then
    on the command returns only when a signal is delivered, and then it
    returns nil. *)
Theorem serving_only_when_initialised (w : World) flags args ev :
  In ev (trace (runCmd w flags args)) → serving ev = true →
  ∃ cfg, loaded w args cfg ∧ initialised w cfg ∧
         returned (runCmd w flags args)
           = match Signal w with Some _ => Ok tt | None => Blocked end.
Proof.
  intros Hin Hserv.
  assert (10 < stage ev)%nat as Hstage
    by (destruct ev; simpl in *; try discriminate Hserv; lia).
  destruct (late_call w flags args ev Hin Hstage)
    as (path & fc & cfg & -> & Hr & Hu & Hinit & Hrun & _).
  exists cfg. rewrite Hrun, served_returned.
  split; [apply (loaded_intro w path fc cfg); assumption |].
  split; [assumption | reflexivity].
Qed.

Lemma serving_only_when_initialised_witness :
  ∃ cfg, loaded sample_world ["config.json"] cfg ∧
         initialised sample_world cfg ∧
         returned (runCmd sample_world ∅ ["config.json"])
           = match Signal sample_world with
             | Some _ => Ok tt
             | None => Blocked
             end.
Proof.
  apply (serving_only_when_initialised sample_world ∅ ["config.json"]
           (EServiceStart sample_service)).
  - vm_compute. do 12 right. left. reflexivity.
  - reflexivity.
Defined.

Lemma filter_none {A : Type} (f : A → bool) (l : list A) :
  Forall (λ x, f x = false) l → List.filter f l = [].
Proof.
  induction 1 as [| x l Hx _ IH]; simpl; [reflexivity |].
  rewrite Hx. exact IH.
Qed.

(** A run that got no further than building the executor has executed
    no later statement. *)
Lemma failed_run_early (w : World) flags args :
  (∀ cfg, loaded w args cfg → ¬ initialised w cfg) →
  Forall (λ ev, stage ev ≤ 10)%nat (trace (runCmd w flags args)).
Proof.
  intros Hfail. apply Forall_forall. intros ev Hin.
  apply list_elem_of_In in Hin.
  destruct (decide (stage ev ≤ 10)%nat) as [| Hlate]; [assumption |].
  destruct (late_call w flags args ev Hin ltac:(lia))
    as (path & fc & cfg & -> & Hr & Hu & Hinit & _).
  exfalso. apply (Hfail cfg); [apply (loaded_intro w path fc cfg) |]; assumption.
Qed.

Lemma loaded_unique (w : World) args cfg cfg' :
  loaded w args cfg → loaded w args cfg' → cfg = cfg'.
Proof.
  intros (p & fc & -> & Hr & Hu) (p' & fc' & Heq & Hr' & Hu').
  simplify_eq. congruence.
Qed.

(** X5. In any run the three statements [service.Start()],
    [go service.StartWeb(..)] and [go service.StartGRPC(..)] are either not
    executed at all, or executed exactly once each and in this order:
    [Start] has returned before either server goroutine is spawned, both
    are spawned on the one service value that was started, the web server
    for [":<webPort>"] and the gRPC server for [":<grpcPort>"] of the loaded
    configuration. Nothing is said about when the two goroutines run. *)
Theorem serving_calls (w : World) flags args :
  List.filter serving (trace (runCmd w flags args)) = [] ∨
  ∃ cfg, loaded w args cfg ∧
    List.filter serving (trace (runCmd w flags args)) =
      [ EServiceStart (serviceOf w flags cfg);
        EGoStartWeb (serviceOf w flags cfg)
                    (listenAddr (WebPort (Service cfg)));
        EGoStartGRPC (serviceOf w flags cfg)
                     (listenAddr (GRPCPort (Service cfg))) ].
Proof.
  destruct (run_view w flags args)
    as [path fc cfg -> Hr Hu Hinit Hrun
       | path fc cfg e -> Hr Hu Hinit Hret Hpre
       | Hno Hret _].
  - right. exists cfg. split; [apply (loaded_intro w path fc cfg); assumption |].
    rewrite Hrun. unfold served, startup.
    destruct (Signal w); simpl;
      destruct (decide (Kubeconfig (Kubernetes cfg) = "")); reflexivity.
  - left. apply filter_none.
    eapply Forall_impl.
    + apply failed_run_early. intros cfg' Hload Hinit'.
      rewrite (loaded_unique w [path] cfg' cfg Hload
                 (loaded_intro w path fc cfg Hr Hu)) in Hinit'.
      contradiction.
    + intros ev Hstage. destruct ev; simpl in *; try reflexivity; lia.
  - left. apply filter_none.
    eapply Forall_impl.
    + apply failed_run_early. intros cfg' Hload _. apply Hno. eauto.
    + intros ev Hstage. destruct ev; simpl in *; try reflexivity; lia.
Qed.

(** X6. The web server and the gRPC server are started on the same
    address exactly when the two configured ports are equal. *)
Theorem listen_addresses (w : World) flags args s s' a b :
  In (EGoStartWeb s a) (trace (runCmd w flags args)) →
  In (EGoStartGRPC s' b) (trace (runCmd w flags args)) →
  ∃ cfg, loaded w args cfg ∧
    a = listenAddr (WebPort (Service cfg)) ∧
    b = listenAddr (GRPCPort (Service cfg)) ∧
    (a = b ↔ WebPort (Service cfg) = GRPCPort (Service cfg)).
Proof.
  intros Hweb Hgrpc.
  destruct (late_call w flags args _ Hweb ltac:(simpl; lia))
    as (path & fc & cfg & -> & Hr & Hu & _ & Hrun & Hweb').
  rewrite Hrun in Hgrpc.
  apply (in_prefix _ _ _ (served_prefix _ _ _ _ _)) in Hgrpc.
  exists cfg. split; [apply (loaded_intro w path fc cfg); assumption |].
  assert (a = listenAddr (WebPort (Service cfg))) as ->
    by (in_startup Hweb'; reflexivity).
  assert (b = listenAddr (GRPCPort (Service cfg))) as ->
    by (in_startup Hgrpc; reflexivity).
  repeat split.
  - unfold listenAddr. intros Heq.
    apply (inj (String.app ":")) in Heq. apply (inj pretty) in Heq.
    exact Heq.
  - intros ->. reflexivity.
Qed.

Lemma listen_addresses_witness :
  ∃ cfg, loaded sample_world ["config.json"] cfg ∧
    ":8080" = listenAddr (WebPort (Service cfg)) ∧
    ":7777" = listenAddr (GRPCPort (Service cfg)) ∧
    (":8080" = ":7777" ↔ WebPort (Service cfg) = GRPCPort (Service cfg)).
Proof.
  apply (listen_addresses sample_world ∅ ["config.json"]
           sample_service sample_service).
  - vm_compute. do 13 right. left. reflexivity.
  - vm_compute. do 14 right. left. reflexivity.
Defined.

(** X7. The service that is started carries the value of the
    [debug-webui-proxy] flag as its [DebugProxy]; without the flag that is
    the empty string. *)
Theorem debug_proxy_is_flag (w : World) flags args s :
  In (EServiceStart s) (trace (runCmd w flags args)) →
  werft.DebugProxy s = GetString flags "debug-webui-proxy" ∧
  (flags !! "debug-webui-proxy" = None → werft.DebugProxy s = "").
Proof.
  intros Hin.
  destruct (late_call w flags args _ Hin ltac:(simpl; lia))
    as (path & fc & cfg & -> & Hr & Hu & _ & Hrun & Hin').
  assert (s = serviceOf w flags cfg) as -> by (in_startup Hin'; reflexivity).
  assert (werft.DebugProxy (serviceOf w flags cfg)
          = GetString flags "debug-webui-proxy") as Hproxy.
  { unfold serviceOf.
    destruct (decide (GetString flags "debug-webui-proxy" = "")) as [-> |];
      reflexivity. }
  split; [exact Hproxy |].
  intros Hunset. rewrite Hproxy. unfold GetString. rewrite Hunset. reflexivity.
Qed.

Lemma debug_proxy_is_flag_witness :
  werft.DebugProxy
    (werft.setDebugProxy "http://localhost:3000" sample_service)
    = GetString {["debug-webui-proxy" := "http://localhost:3000"]}
                "debug-webui-proxy" ∧
  (({["debug-webui-proxy" := "http://localhost:3000"]} : gmap string string)
     !! "debug-webui-proxy" = None →
   werft.DebugProxy
     (werft.setDebugProxy "http://localhost:3000" sample_service) = "").
Proof.
  apply (debug_proxy_is_flag sample_world
           {["debug-webui-proxy" := "http://localhost:3000"]}
           ["config.json"]).
  vm_compute. do 12 right. left. reflexivity.
Defined.

(** X8. Whenever the executor is built, it is built for a namespace that is
    not empty and with the Kubernetes client configuration chosen by the
    configured kubeconfig path: the in-cluster one when the path is empty,
    the one built from that file otherwise. *)
Theorem executor_inputs (w : World) flags args ec kc :
  In (ENewExecutor ec kc) (trace (runCmd w flags args)) →
  executor.Namespace ec ≠ "" ∧
  ∃ cfg, loaded w args cfg ∧
    kc = if decide (Kubeconfig (Kubernetes cfg) = "") then rest.InCluster
         else rest.FromFlags "" (Kubeconfig (Kubernetes cfg)).
Proof.
  intros Hin.
  destruct (loaded_call w flags args _ Hin ltac:(simpl; lia))
    as (path & fc & cfg & -> & Hr & Hu & Hin').
  assert (ec = execCfg cfg ∧ kc = kubeSource cfg) as [-> ->]
    by (unfold kubeSource; in_startup Hin'; split; reflexivity).
  split.
  - rewrite execCfg_namespace.
    destruct (decide (Namespace (Kubernetes cfg) = ""));
      [discriminate | assumption].
  - exists cfg. split; [apply (loaded_intro w path fc cfg); assumption |].
    reflexivity.
Qed.

Lemma executor_inputs_witness :
  executor.Namespace {| executor.Namespace := "default" |} ≠ "" ∧
  ∃ cfg, loaded sample_world ["config.json"] cfg ∧
    rest.InCluster =
      if decide (Kubeconfig (Kubernetes cfg) = "") then rest.InCluster
      else rest.FromFlags "" (Kubeconfig (Kubernetes cfg)).
Proof.
  apply (executor_inputs sample_world ∅ ["config.json"]).
  vm_compute. do 10 right. left. reflexivity.
Defined.

(** X9. The only database the command ever touches is the one opened with
    the driver [postgres] and the configured connection string: that is what
    [sql.Open] is called with, and [Ping] and [NewSQLJobStore] are called on
    the handle it returned. *)
Theorem database_calls (w : World) flags args ev :
  In ev (trace (runCmd w flags args)) → database_call ev = true →
  ∃ cfg, loaded w args cfg ∧
    (ev = EOpen "postgres" (JobStore (Storage cfg)) ∨
     ev = EPing (sql.Opened "postgres" (JobStore (Storage cfg))) ∨
     ev = ENewSQLJobStore (sql.Opened "postgres" (JobStore (Storage cfg)))).
Proof.
  intros Hin Hdb.
  assert (1 < stage ev)%nat as Hstage
    by (destruct ev; simpl in *; try discriminate Hdb; lia).
  destruct (loaded_call w flags args _ Hin Hstage)
    as (path & fc & cfg & -> & Hr & Hu & Hin').
  exists cfg. split; [apply (loaded_intro w path fc cfg); assumption |].
  in_startup Hin'; try discriminate Hdb; auto.
Qed.

Lemma database_calls_witness :
  ∃ cfg, loaded sample_world ["config.json"] cfg ∧
    (EPing (sql.Opened "postgres" "dbname=werft sslmode=disable")
       = EOpen "postgres" (JobStore (Storage cfg)) ∨
     EPing (sql.Opened "postgres" "dbname=werft sslmode=disable")
       = EPing (sql.Opened "postgres" (JobStore (Storage cfg))) ∨
     EPing (sql.Opened "postgres" "dbname=werft sslmode=disable")
       = ENewSQLJobStore (sql.Opened "postgres" (JobStore (Storage cfg)))).
Proof.
  apply (database_calls sample_world ∅ ["config.json"]).
  - vm_compute. do 7 right. left. reflexivity.
  - reflexivity.
Defined.

(** X10. The service that is started talks to GitHub through a client
    whose transport was loaded from the configured private key file for the
    configured application and installation ids, checks webhooks against the
    configured secret, and holds the executor built from the configuration;
    that executor has been [Run] before [service.Start]. *)
Theorem service_wiring (w : World) flags args s :
  In (EServiceStart s) (trace (runCmd w flags args)) →
  ∃ cfg, loaded w args cfg ∧
    werft.GitHub s =
      {| werft.WebhookSecret := WebhookSecret (GitHub cfg);
         werft.Client :=
           github.NewClient
             (ghinstallation.KeyFromFile (AppID (GitHub cfg))
                (InstallationID (GitHub cfg))
                (PrivateKeyPath (GitHub cfg))) |} ∧
    werft.Executor s = executor.Built (execCfg cfg) (kubeSource cfg) ∧
    before (EExecRun (werft.Executor s)) (EServiceStart s)
           (trace (runCmd w flags args)).
Proof.
  intros Hin.
  destruct (late_call w flags args _ Hin ltac:(simpl; lia))
    as (path & fc & cfg & -> & Hr & Hu & _ & Hrun & Hin').
  assert (s = serviceOf w flags cfg) as -> by (in_startup Hin'; reflexivity).
  exists cfg. split; [apply (loaded_intro w path fc cfg); assumption |].
  assert (werft.GitHub (serviceOf w flags cfg) =
            {| werft.WebhookSecret := WebhookSecret (GitHub cfg);
               werft.Client :=
                 github.NewClient
                   (ghinstallation.KeyFromFile (AppID (GitHub cfg))
                      (InstallationID (GitHub cfg))
                      (PrivateKeyPath (GitHub cfg))) |} ∧
          werft.Executor (serviceOf w flags cfg)
            = executor.Built (execCfg cfg) (kubeSource cfg)) as [Hgh Hex].
  { unfold serviceOf.
    destruct (decide (GetString flags "debug-webui-proxy" = ""));
      split; reflexivity. }
  split; [exact Hgh | split; [exact Hex |]].
  rewrite Hex, Hrun. unfold served.
  exists (take 11 (startup w flags path fc cfg)), [].
  destruct (Signal w).
  - exists (drop 13 (startup w flags path fc cfg)). reflexivity.
  - exists (take 5 (drop 13 (startup w flags path fc cfg))). reflexivity.
Qed.

Lemma service_wiring_witness :
  ∃ cfg, loaded sample_world ["config.json"] cfg ∧
    werft.GitHub sample_service =
      {| werft.WebhookSecret := WebhookSecret (GitHub cfg);
         werft.Client :=
           github.NewClient
             (ghinstallation.KeyFromFile (AppID (GitHub cfg))
                (InstallationID (GitHub cfg))
                (PrivateKeyPath (GitHub cfg))) |} ∧
    werft.Executor sample_service
      = executor.Built (execCfg cfg) (kubeSource cfg) ∧
    before (EExecRun (werft.Executor sample_service))
           (EServiceStart sample_service)
           (trace (runCmd sample_world ∅ ["config.json"])).
Proof.
  apply (service_wiring sample_world ∅ ["config.json"]).
  vm_compute. do 12 right. left. reflexivity.
Defined.

Lemma StronglySorted_prefix {A : Type} (R : A → A → Prop) (l1 l2 : list A) :
  l1 `prefix_of` l2 → StronglySorted R l2 → StronglySorted R l1.
Proof.
  intros [k ->]. induction l1 as [| x l1 IH]; simpl; intros Hs.
  - constructor.
  - inversion Hs as [| ? ? Hrest Hall]; subst. constructor.
    + apply IH. exact Hrest.
    + apply Forall_app in Hall. tauto.
Qed.

Lemma map_prefix {A B : Type} (f : A → B) (l1 l2 : list A) :
  l1 `prefix_of` l2 → map f l1 `prefix_of` map f l2.
Proof. intros [k ->]. exists (map f k). apply map_app. Qed.

Lemma take_prefix {A : Type} (n : nat) (l : list A) : take n l `prefix_of` l.
Proof. exists (drop n l). symmetry. apply take_drop. Qed.

Lemma startup_in_order (w : World) flags path fc cfg :
  StronglySorted lt (map stage (startup w flags path fc cfg)).
Proof.
  unfold startup.
  destruct (decide (Kubeconfig (Kubernetes cfg) = "")); simpl;
    repeat (constructor; [| repeat (constructor; [lia |]); constructor]);
    constructor.
Qed.

(** X11. Whatever fails and wherever, the statements of [RunE] that reach
    outside are executed by the command itself in the order in which they
    stand in the source, and none twice: along the trace the position of
    the statement in the source strictly increases. For [StartWeb] and
    [StartGRPC] the statement is the [go] statement that spawns the call;
    when the spawned calls run, relative to each other or to the statements
    after them, is not covered. *)
Theorem calls_in_source_order (w : World) flags args :
  StronglySorted lt (map stage (trace (runCmd w flags args))).
Proof.
  destruct (run_view w flags args)
    as [path fc cfg -> Hr Hu Hinit Hrun
       | path fc cfg e -> Hr Hu Hinit Hret Hpre
       | Hno Hret (x & y & Hpre)].
  - rewrite Hrun.
    eapply StronglySorted_prefix; [| apply (startup_in_order w flags path fc cfg)].
    apply map_prefix, served_prefix.
  - eapply StronglySorted_prefix; [| apply (startup_in_order w flags path fc cfg)].
    apply map_prefix. etransitivity; [exact Hpre | apply take_prefix].
  - eapply StronglySorted_prefix; [apply map_prefix; exact Hpre |].
    simpl. repeat constructor.
Qed.



(** X13. The command returns nil only after the receive on the signal
    channel, and only if a signal is delivered: it returns nil exactly when
    it has reached the receive and a signal arrives; a run that reaches the
    receive and is never sent a signal does not return. *)
Theorem returns_nil_iff_signal_awaited (w : World) flags args :
  (returned (runCmd w flags args) = Ok tt ↔
   In EAwaitSignal (trace (runCmd w flags args)) ∧ Signal w ≠ None) ∧
  (In EAwaitSignal (trace (runCmd w flags args)) → Signal w = None →
   returned (runCmd w flags args) = Blocked).
Proof.
  split; [split |].
  - intros Hok.
    destruct (run_view w flags args)
      as [path fc cfg -> Hr Hu Hinit Hrun
         | path fc cfg e -> Hr Hu Hinit Hret Hpre
         | Hno Hret _].
    + rewrite Hrun in *. unfold served in *.
      destruct (Signal w); [| discriminate Hok].
      split; [| discriminate].
      unfold startup. simpl. do 17 right. left. reflexivity.
    + congruence.
    + contradiction.
  - intros [Hin Hsig].
    destruct (late_call w flags args _ Hin ltac:(simpl; lia))
      as (path & fc & cfg & -> & _ & _ & _ & Hrun & _).
    rewrite Hrun, served_returned.
    destruct (Signal w); [reflexivity | contradiction].
  - intros Hin Hsig.
    destruct (late_call w flags args _ Hin ltac:(simpl; lia))
      as (path & fc & cfg & -> & _ & _ & _ & Hrun & _).
    rewrite Hrun, served_returned, Hsig. reflexivity.
Qed.

(** * The web UI entry point *)

Lemma substring_all (s : string) : String.substring 0 (String.length s) s = s.
Proof. induction s as [| c s IH]; simpl; [reflexivity | by rewrite IH]. Qed.

Lemma substring_drop (p s : string) :
  App.substring (String.length p) (p +:+ s) = s.
Proof.
  unfold App.substring. induction p as [| c p IH]; simpl.
  - rewrite Nat.sub_0_r. apply substring_all.
  - exact IH.
Qed.

Lemma substring_past_end (start : nat) (s : string) :
  (String.length s ≤ start)%nat → App.substring start s = "".
Proof.
  unfold App.substring. intros Hle.
  replace (String.length s - start)%nat with 0%nat by lia.
  clear Hle. revert start. induction s as [| c s IH]; intros [| n]; simpl;
    try reflexivity. apply IH.
Qed.

(** X14. The job view shows the job named by what follows the first five
    characters of the path: for a path [/job/<name>] that is [<name>], and
    for a path of at most five characters, such as [/job] or [/job/], it is
    the empty name. The first five characters are dropped unread. *)
Theorem jobName_of_path (prefix name : string) :
  String.length prefix = 5%nat →
  App.jobName (prefix +:+ name) = name ∧
  App.jobName ("/job/" +:+ name) = name ∧
  (∀ path, (String.length path ≤ 5)%nat → App.jobName path = "").
Proof.
  intros Hlen. unfold App.jobName. repeat split.
  - change (String.length "/job/") with 5%nat. rewrite <- Hlen.
    apply substring_drop.
  - apply (substring_drop "/job/").
  - intros path Hle. apply substring_past_end. exact Hle.
Qed.

Lemma jobName_of_path_witness :
  App.jobName ("/JOB/" +:+ "build-123") = "build-123" ∧
  App.jobName ("/job/" +:+ "build-123") = "build-123" ∧
  (∀ path, (String.length path ≤ 5)%nat → App.jobName path = "").
Proof.
  apply (jobName_of_path "/JOB/" "build-123"). reflexivity.
Defined.
